(** * hamster-cache: a shallow embedding of [src/Cache.ts]

    The cache class of the repository is embedded as a state-and-exception
    monad over a record holding the two mutable structures the class owns
    (the backing ES6 [Map] and the [LRUQueue]) together with a log of the
    dispose callbacks that have been invoked.  JavaScript exceptions keep
    the heap as it was at the point of the throw, so a computation returns
    an outcome *and* a state in every case. *)

From Stdlib Require Import ZArith QArith Lia Lqa.
From stdpp Require Import base decidable option list strings.

Local Open Scope Z_scope.

(** ** JavaScript numbers

    Timestamps, TTLs and the capacity are JavaScript numbers.  The model
    keeps the finite values as rationals, compared and added exactly
    (integers, and the fractions a capacity such as 1.5 needs; the
    rounding of doubles is left out), and the value [Infinity], which the
    constructor uses as default for [defaultTTL] and [maximalItemCount];
    [NaN] and [-Infinity] are left out.  An integer stands for itself. *)

Coercion inject_Z : Z >-> Q.

Inductive number : Type :=
| Num (q : Q)
| Infinity.

(** [a <= b] *)
Definition num_le (a b : number) : bool :=
  match a, b with
  | Num x, Num y => Qle_bool x y
  | _, Infinity => true
  | Infinity, Num _ => false
  end.

(** [a < b] *)
Definition num_lt (a b : number) : bool :=
  match a, b with
  | Num x, Num y => negb (Qle_bool y x)
  | Num _, Infinity => true
  | Infinity, _ => false
  end.

(** [a + b] *)
Definition num_add (a b : number) : number :=
  match a, b with
  | Num x, Num y => Num (x + y)
  | _, _ => Infinity
  end.

(** ** Exceptions and the cache monad *)

Inductive Error : Type :=
| TypeError      (* property access on [undefined] *)
| ConfigError.   (* [throw new Error(...)] in the constructor *)

(** [OutOfFuel] is the model's stand-in for a [while] loop that has not
    finished within the iteration bound it was run with. *)
Inductive outcome (A : Type) : Type :=
| Ret (a : A)
| Throw (e : Error)
| OutOfFuel.
Arguments Ret {A} a.
Arguments Throw {A} e.
Arguments OutOfFuel {A}.

Definition M (S A : Type) : Type := S -> outcome A * S.

#[export] Instance M_ret {S} : MRet (M S) := λ A a s, (Ret a, s).

#[export] Instance M_bind {S} : MBind (M S) := λ A B f m s,
  match m s with
  | (Ret a, s') => f a s'
  | (Throw e, s') => (Throw e, s')
  | (OutOfFuel, s') => (OutOfFuel, s')
  end.

Definition throw {S A} (e : Error) : M S A := λ s, (Throw e, s).
Definition gets {S A} (f : S -> A) : M S A := λ s, (Ret (f s), s).
Definition modify {S} (f : S -> S) : M S unit := λ s, (Ret tt, f s).

(** ** The ES6 [Map] used as backing store

    An insertion-ordered association list without duplicate keys:
    [Map.prototype.set] on a present key replaces the value in place, on a
    new key appends; iteration is in list order. *)

Module JSMap.
Section JSMap.
Context {K A : Type} `{EqDecision K}.

Fixpoint get (k : K) (m : list (K * A)) : option A :=
  match m with
  | [] => None
  | (k', a) :: m' => if decide (k' = k) then Some a else get k m'
  end.

Definition has (k : K) (m : list (K * A)) : bool := bool_decide (is_Some (get k m)).

Fixpoint set (k : K) (a : A) (m : list (K * A)) : list (K * A) :=
  match m with
  | [] => [(k, a)]
  | (k', a') :: m' => if decide (k' = k) then (k, a) :: m' else (k', a') :: set k a m'
  end.

(** [Map.prototype.delete]: the map without [k]. *)
Definition remove (k : K) (m : list (K * A)) : list (K * A) :=
  filter (λ p, p.1 ≠ k) m.

Definition keys (m : list (K * A)) : list K := m.*1.

Definition wf (m : list (K * A)) : Prop := NoDup (keys m).

End JSMap.
End JSMap.

(** ** Data model of [Cache.ts] *)

(** A dispose callback is an opaque closure; the model identifies it by a
    number and records each invocation in the [disposed] log.  A callback
    that calls back into the cache is outside the model. *)
Definition DisposeFunction : Type := nat.

Inductive CacheStrategy : Type := age | lru.

Record IItem (V : Type) : Type := mkItem {
  value : V;
  expireAfterTimestamp : number;
  storageTimestamp : number;
  dispose : option DisposeFunction;
}.
Arguments mkItem {V} _ _ _ _.
Arguments value {V} _.
Arguments expireAfterTimestamp {V} _.
Arguments storageTimestamp {V} _.
Arguments dispose {V} _.

(** The immutable part of [IOptions]; the [cache] map it also carries is
    mutable and lives in the state. *)
Record IOptions : Type := mkOptions {
  defaultTTL : number;
  maximalItemCount : number;
  evictExceedingItemsBy : CacheStrategy;
}.

Record ISetItemOptions : Type := mkSetOptions {
  ttl : option number;
  set_storageTimestamp : option number;
  set_dispose : option DisposeFunction;
}.

(** ** The recency queue, as an interface

    [Cache.ts] imports [LRUQueue] and uses five of its methods. *)
Class LRUQueue (K Q : Type) : Type := {
  lq_new : Q;
  lq_push : K -> Q -> Q;
  lq_touch : K -> Q -> Q;
  lq_shift : Q -> option K * Q;
  lq_delete : K -> Q -> Q;
  lq_clear : Q -> Q;
}.

(** Modelled from the spec: [LRUQueue.ts] is not among the sources.  The
    spec (section 4.1, UsageOrder) describes a recency-ordered sequence of
    tracked keys and says what the five operations do to it; the laws
    below say that and no more.  [lq_keys] is the sequence, from least to
    most recently used.  [push] inserts the key at the most-recently-used
    end, and the spec gives it the precondition that the key is not
    tracked: the law binds a queue only then, and leaves open what a
    [push] of a tracked key does.  [touch] moves a tracked key to that
    end and is a no-op on an untracked one, [shift] removes and returns
    the least-recently-used key or reports "empty", [delete] removes the
    key if present, [clear] removes all.  The laws speak of a queue that
    tracks no key twice, as every queue used within the precondition
    does. *)
Class LRUQueueSpec (K Q : Type) `{EqDecision K} `{LRUQueue K Q} : Type := {
  lq_keys : Q -> list K;
  lq_keys_new : lq_keys lq_new = [];
  lq_keys_push k q :
    NoDup (lq_keys q) -> k ∉ lq_keys q -> lq_keys (lq_push k q) = lq_keys q ++ [k];
  lq_keys_touch k q :
    NoDup (lq_keys q) ->
    lq_keys (lq_touch k q) =
      if decide (k ∈ lq_keys q) then filter (λ x, x ≠ k) (lq_keys q) ++ [k] else lq_keys q;
  lq_keys_shift q :
    NoDup (lq_keys q) ->
    (lq_shift q).1 = head (lq_keys q) ∧ lq_keys (lq_shift q).2 = tail (lq_keys q);
  lq_keys_delete k q :
    NoDup (lq_keys q) -> lq_keys (lq_delete k q) = filter (λ x, x ≠ k) (lq_keys q);
  lq_keys_clear q : lq_keys (lq_clear q) = [];
}.

(** Modelled from the spec: a queue that keeps the sequence itself, as a
    list.  Where the spec is silent (a [push] of a tracked key) this one
    appends a second entry, and its [delete] removes every entry of the
    key. *)
#[export] Instance list_LRUQueue {K} `{EqDecision K} : LRUQueue K (list K) := {|
  lq_new := [];
  lq_push k q := q ++ [k];
  lq_touch k q := if decide (k ∈ q) then filter (λ x, x ≠ k) q ++ [k] else q;
  lq_shift q := match q with [] => (None, []) | k :: q' => (Some k, q') end;
  lq_delete k q := filter (λ x, x ≠ k) q;
  lq_clear _ := [];
|}.

#[export] Instance list_LRUQueueSpec {K} `{EqDecision K} : LRUQueueSpec K (list K).
Proof.
  refine {| lq_keys := λ q : list K, q |}; try reflexivity.
  intros [|k q] _; split; reflexivity.
Defined.

(** The list without the first entry of [k]. *)
Fixpoint remove_first {K} `{EqDecision K} (k : K) (q : list K) : list K :=
  match q with
  | [] => []
  | x :: q' => if decide (x = k) then q' else x :: remove_first k q'
  end.

(** Modelled from the spec: a second queue that meets the same laws.  It
    differs from the first only where the spec is silent: once a key has
    been pushed twice, a [delete] removes one entry of it, the first. *)
Definition single_delete_LRUQueue {K} `{EqDecision K} : LRUQueue K (list K) := {|
  lq_new := [];
  lq_push k q := q ++ [k];
  lq_touch k q := if decide (k ∈ q) then filter (λ x, x ≠ k) q ++ [k] else q;
  lq_shift q := match q with [] => (None, []) | k :: q' => (Some k, q') end;
  lq_delete k q := remove_first k q;
  lq_clear _ := [];
|}.


(** ** The class [Cache] *)

Module Cache.
Section Cache.
Context {K V Q : Type} `{EqDecision K} `{LRUQueue K Q}.

(** [this.options.cache], [this.lruQueue], and the callbacks run so far. *)
Record State : Type := mkState {
  cache : list (K * IItem V);
  lruQueue : Q;
  disposed : list DisposeFunction;
}.

Definition with_cache (f : list (K * IItem V) -> list (K * IItem V)) (c : State) : State :=
  mkState (f (cache c)) (lruQueue c) (disposed c).
Definition with_lruQueue (f : Q -> Q) (c : State) : State :=
  mkState (cache c) (f (lruQueue c)) (disposed c).
Definition with_disposed (f : list DisposeFunction -> list DisposeFunction) (c : State) : State :=
  mkState (cache c) (lruQueue c) (f (disposed c)).

(** [constructor]: the defaults of the destructured parameter, the two
    checks, and the frozen options. *)
Definition constructor (defaultTTL_ maximalItemCount_ : option number)
    (cache_ : option (list (K * IItem V)))
    (evictExceedingItemsBy_ : option CacheStrategy) : Error + (IOptions * State) :=
  let defaultTTL := default Infinity defaultTTL_ in
  let maximalItemCount := default Infinity maximalItemCount_ in
  let cache := default [] cache_ in
  let evictExceedingItemsBy := default lru evictExceedingItemsBy_ in
  if num_lt defaultTTL (Num 0) then inl ConfigError
  else if num_lt maximalItemCount (Num 1) then inl ConfigError
  else inr (mkOptions defaultTTL maximalItemCount evictExceedingItemsBy,
            mkState cache lq_new []).

(** [size()] *)
Definition size : M State nat := gets (λ c, length (cache c)).

(** [peekItem(key)].  The private callers can pass [undefined] (the result
    of [shift()] on an empty queue); no key of type [K] is [undefined], so
    the lookup then finds nothing. *)
Definition peekItem (key : option K) : M State (option (IItem V)) :=
  gets (λ c, k ← key; JSMap.get k (cache c)).

(** [peek(key)]: [item && item.value] *)
Definition peek (key : K) : M State (option V) :=
  item ← peekItem (Some key);
  mret (value <$> item).

(** [dispose(key)] (private; [dispose] names the field of the item here):
    [item.dispose] on a missing item is a property access on [undefined]. *)
Definition disposeKey (key : option K) : M State unit :=
  item ← peekItem key;
  match item with
  | None => throw TypeError
  | Some it =>
      match dispose it with
      | Some d => modify (with_disposed (λ l, l ++ [d]))
      | None => mret tt
      end
  end.

(** [delete(key)] *)
Definition delete (key : K) : M State bool :=
  _ ← disposeKey (Some key);
  _ ← modify (with_lruQueue (lq_delete key));
  found ← gets (λ c, JSMap.has key (cache c));
  _ ← modify (with_cache (JSMap.remove key));
  mret found.

(** [deleteOldestItem()] (private) *)
Definition deleteOldestItem : M State unit :=
  key ← gets (λ c, head (JSMap.keys (cache c)));
  match key with
  | Some k => _ ← delete k; mret tt
  | None => mret tt
  end.

(** [deleteLeastRecentlyUsedItem()] (private) *)
Definition deleteLeastRecentlyUsedItem : M State bool :=
  key ← (λ c, let '(k, q) := lq_shift (lruQueue c) in (Ret k, with_lruQueue (λ _, q) c));
  _ ← disposeKey key;
  match key with
  | Some k =>
      _ ← modify (with_lruQueue (lq_delete k));
      found ← gets (λ c, JSMap.has k (cache c));
      _ ← modify (with_cache (JSMap.remove k));
      mret found
  | None => mret false
  end.

(** The [while] loop of [set], run for at most [fuel] iterations. *)
Fixpoint evictLoop (o : IOptions) (fuel : nat) : M State unit := λ c,
  if num_le (maximalItemCount o) (Num (Z.of_nat (length (cache c)))) then
    match fuel with
    | O => (OutOfFuel, c)
    | S fuel' =>
        (_ ← match evictExceedingItemsBy o with
             | age => deleteOldestItem
             | lru => _ ← deleteLeastRecentlyUsedItem; mret tt
             end;
         evictLoop o fuel') c
    end
  else (Ret tt, c).

(** [set(key, value, {ttl, storageTimestamp, dispose})]; [now] is the
    reading of [Date.now()] at the call.  Each iteration of the loop that
    returns removes an item, so the loop is given one more iteration than
    there are items (see [evictLoop_fuel]). *)
Definition set (o : IOptions) (now : number) (key : K) (v : V)
    (opts : ISetItemOptions) : M State bool :=
  let ttl := default (defaultTTL o) (ttl opts) in
  let storageTimestamp := default now (set_storageTimestamp opts) in
  if num_le ttl (Num 0) then mret false
  else
    let expireAfterTimestamp :=
      if num_lt ttl Infinity then num_add storageTimestamp ttl else Infinity in
    let item := mkItem v expireAfterTimestamp storageTimestamp (set_dispose opts) in
    n ← size;
    _ ← evictLoop o (S n);
    _ ← modify (with_lruQueue (lq_push key));
    _ ← modify (with_cache (JSMap.set key item));
    mret true.

(** [getItem(key, ifNotExpiredOnTimestamp)]; the timestamp is the argument,
    or the reading of [Date.now()] when it is omitted. *)
Definition getItem (key : K) (ifNotExpiredOnTimestamp : number) : M State (option (IItem V)) :=
  item ← gets (λ c, JSMap.get key (cache c));
  match item with
  | Some it =>
      if num_le (expireAfterTimestamp it) ifNotExpiredOnTimestamp
      then _ ← delete key; mret None
      else _ ← modify (with_lruQueue (lq_touch key)); mret item
  | None => _ ← modify (with_lruQueue (lq_touch key)); mret item
  end.

(** [get(key, ifNotExpiredOnTimestamp)] *)
Definition get (key : K) (ifNotExpiredOnTimestamp : number) : M State (option V) :=
  item ← getItem key ifNotExpiredOnTimestamp;
  mret (value <$> item).

(** The body of the [for ... of] loop of [evictExpiredItems] over the
    entries still to be visited.  [delete] only removes the entry under the
    visited key, so the entries the live iterator yields are those of the
    map at the start of the sweep. *)
Fixpoint evictExpiredLoop (ifOlderThanTimestamp : number)
    (entries : list (K * IItem V)) : M State unit :=
  match entries with
  | [] => mret tt
  | (key, item) :: rest =>
      _ ← (if num_le (expireAfterTimestamp item) ifOlderThanTimestamp
           then _ ← delete key; mret tt
           else mret tt);
      evictExpiredLoop ifOlderThanTimestamp rest
  end.

(** [evictExpiredItems(ifOlderThanTimestamp)] *)
Definition evictExpiredItems (ifOlderThanTimestamp : number) : M State unit :=
  entries ← gets cache;
  evictExpiredLoop ifOlderThanTimestamp entries.

(** [has(key)] *)
Definition has (key : K) : M State bool := gets (λ c, JSMap.has key (cache c)).

(** [clear()] *)
Definition clear : M State unit :=
  _ ← modify (with_cache (λ _, []));
  modify (with_lruQueue lq_clear).

(** [setTTL(key, ttl, beginningFromTimestamp)]: the assignment to
    [item.expireAfterTimestamp] throws when [item] is [undefined]; the
    item object is the one the map holds, so the map sees the update. *)
Definition setTTL (key : K) (ttl beginningFromTimestamp : number) : M State number :=
  item ← gets (λ c, JSMap.get key (cache c));
  match item with
  | None => throw TypeError
  | Some it =>
      let e := num_add beginningFromTimestamp ttl in
      let it' := mkItem (value it) e (storageTimestamp it) (dispose it) in
      _ ← modify (with_cache (JSMap.set key it'));
      mret e
  end.

(** *** Sequences of calls on the public interface *)

Inductive Op : Type :=
| OpSet (now : number) (key : K) (v : V) (opts : ISetItemOptions)
| OpPeekItem (key : K)
| OpPeek (key : K)
| OpGetItem (key : K) (ts : number)
| OpGet (key : K) (ts : number)
| OpEvictExpiredItems (ts : number)
| OpHas (key : K)
| OpDelete (key : K)
| OpClear
| OpSize
| OpSetTTL (key : K) (ttl ts : number).

Definition void {A} (m : M State A) : M State unit := _ ← m; mret tt.

Definition exec (o : IOptions) (op : Op) : M State unit :=
  match op with
  | OpSet now key v opts => void (set o now key v opts)
  | OpPeekItem key => void (peekItem (Some key))
  | OpPeek key => void (peek key)
  | OpGetItem key ts => void (getItem key ts)
  | OpGet key ts => void (get key ts)
  | OpEvictExpiredItems ts => void (evictExpiredItems ts)
  | OpHas key => void (has key)
  | OpDelete key => void (delete key)
  | OpClear => clear
  | OpSize => void size
  | OpSetTTL key ttl ts => void (setTTL key ttl ts)
  end.

(** The state a call leaves behind, whether it returned or threw (the
    caller may catch the exception and go on using the cache). *)
Definition step (o : IOptions) (c : State) (op : Op) : State := (exec o op c).2.

Definition run (o : IOptions) (ops : list Op) (c : State) : State :=
  foldl (step o) c ops.

(** *** Auxiliary notions used to state the properties *)

(** The state after the item under [key] has been disposed and taken out
    of both structures (the effect of the three statements of [delete]). *)
Definition removed (key : K) (item : IItem V) (c : State) : State :=
  mkState (JSMap.remove key (cache c)) (lq_delete key (lruQueue c))
          (disposed c ++ option_list (dispose item)).

(** The state after the last two statements of [set]. *)
Definition inserted (key : K) (item : IItem V) (c : State) : State :=
  mkState (JSMap.set key item (cache c)) (lq_push key (lruQueue c)) (disposed c).

(** The item [set] builds from its arguments. *)
Definition new_item (o : IOptions) (now : number) (v : V) (opts : ISetItemOptions) : IItem V :=
  let t := default (defaultTTL o) (ttl opts) in
  let st := default now (set_storageTimestamp opts) in
  mkItem v (if num_lt t Infinity then num_add st t else Infinity) st (set_dispose opts).

(** [set] accepts the write: the effective TTL is positive. *)
Definition ttl_ok (o : IOptions) (opts : ISetItemOptions) : Prop :=
  num_le (default (defaultTTL o) (ttl opts)) (Num 0) = false.

(** The loop condition of [set]. *)
Definition full (o : IOptions) (c : State) : bool :=
  num_le (maximalItemCount o) (Num (Z.of_nat (length (cache c)))).

(** What the constructor checks of the capacity. *)
Definition valid (o : IOptions) : Prop := num_lt (maximalItemCount o) (Num 1) = false.

Definition expired (ts : number) (p : K * IItem V) : Prop :=
  num_le (expireAfterTimestamp p.2) ts = true.

#[global] Instance expired_dec ts p : Decision (expired ts p).
Proof. unfold expired. apply _. Defined.

(** The callbacks registered with the items of a map, in map order. *)
Definition callbacks (m : list (K * IItem V)) : list DisposeFunction :=
  omap (λ p, dispose p.2) m.

(** Callbacks that have run or are still registered. *)
Definition known (c : State) : list DisposeFunction := disposed c ++ callbacks (cache c).

(** The callback a call hands to the cache. *)
Definition op_callbacks (op : Op) : list DisposeFunction :=
  match op with
  | OpSet _ _ _ opts => option_list (set_dispose opts)
  | _ => []
  end.

(** The elementary state changes the methods are composed of, labelled
    with the callback they register. *)
Inductive estep (o : IOptions) : State -> list DisposeFunction -> State -> Prop :=
| estep_remove c k it :
    JSMap.get k (cache c) = Some it ->
    estep o c [] (removed k it c)
| estep_shift_remove c k q it :
    lq_shift (lruQueue c) = (Some k, q) ->
    JSMap.get k (cache c) = Some it ->
    estep o c [] (removed k it (with_lruQueue (λ _, q) c))
| estep_shift_fail c k q :
    lq_shift (lruQueue c) = (k, q) ->
    (k ≫= λ k, JSMap.get k (cache c)) = None ->
    cache c ≠ [] ->
    estep o c [] (with_lruQueue (λ _, q) c)
| estep_insert c key item :
    full o c = false ->
    estep o c (option_list (dispose item)) (inserted key item c)
| estep_touch c k :
    estep o c [] (with_lruQueue (lq_touch k) c)
| estep_clear c :
    estep o c [] (mkState [] (lq_clear (lruQueue c)) (disposed c))
| estep_setTTL c k it e :
    JSMap.get k (cache c) = Some it ->
    estep o c [] (with_cache (JSMap.set k (mkItem (value it) e (storageTimestamp it) (dispose it))) c).

Inductive esteps (o : IOptions) : State -> list DisposeFunction -> State -> Prop :=
| esteps_refl c : esteps o c [] c
| esteps_step c1 r1 c2 r2 c3 :
    estep o c1 r1 c2 -> esteps o c2 r2 c3 -> esteps o c1 (r1 ++ r2) c3.

End Cache.

Arguments State : clear implicits.
Arguments Op : clear implicits.

End Cache.

(** ** The cache over a recency queue that meets the spec *)

Section Contract.
Context {K V Q : Type} `{LRUQueueSpec K Q}.

(** The keys the queue tracks, least recently used first. *)
Definition tracked (c : Cache.State K V Q) : list K := lq_keys (Cache.lruQueue c).

(** Queue and map are in step: no key is tracked twice or stored twice,
    and the keys the queue tracks are the keys of the map (the invariant
    of spec section 4.1). *)
Definition synced (c : Cache.State K V Q) : Prop :=
  JSMap.wf (Cache.cache c) ∧ NoDup (tracked c) ∧
  ∀ k, k ∈ tracked c <-> k ∈ JSMap.keys (Cache.cache c).

(** The call respects the precondition of [push]: the only [push] is the
    one of a [set] that accepts the write, which comes after the eviction
    loop; the key must not be tracked then. *)
Definition push_in_contract (o : IOptions) (op : Cache.Op K V) (c : Cache.State K V Q) : Prop :=
  match op with
  | Cache.OpSet _ key _ opts =>
      Cache.ttl_ok o opts ->
      key ∉ tracked (Cache.evictLoop o (S (length (Cache.cache c))) c).2
  | _ => True
  end.


End Contract.

(** ** Sample caches

    String keys and values over the list queue, as in the
    test suite; the statements below are instantiated on them. *)

Definition plain (d : option DisposeFunction) : ISetItemOptions := mkSetOptions None None d.

Definition fresh : Cache.State string string (list string) := Cache.mkState [] [] [].

Definition lru2 : IOptions := mkOptions Infinity (Num 2) lru.

Definition age2 : IOptions := mkOptions Infinity (Num 2) age.

Definition age1 : IOptions := mkOptions Infinity (Num 1) age.

(** A capacity that is not an integer: [maximalItemCount = 1.5]. *)
Definition age_frac : IOptions := mkOptions Infinity (Num (3 # 2)) age.

(** [createCache(strategy)] of the test suite. *)
Definition createCache (strategy : CacheStrategy) : IOptions :=
  mkOptions (Num 5000) (Num 4) strategy.

(** The calls of the test "evicts exceeding items by LRU". *)
Definition lru_test : list (Cache.Op string string) :=
  [Cache.OpSet (Num 0) "old" "X" (plain (Some 1%nat));
   Cache.OpSet (Num 0) "new" "Y" (plain (Some 2%nat));
   Cache.OpGet "old" (Num 0);
   Cache.OpSet (Num 0) "evenNewer" "Z" (plain (Some 3%nat))].

(** Two items written at 10000 and 11000 with the default TTL 5000. *)
Definition two_ttls : Cache.State string string (list string) :=
  Cache.run (createCache lru)
    [Cache.OpSet (Num 10000) "a" "x" (plain (Some 1%nat));
     Cache.OpSet (Num 11000) "d" "x" (plain (Some 2%nat))] fresh.

(** A cache of capacity 2 holding two items, ["a"] the less recently used. *)
Definition two_items : Cache.State string string (list string) :=
  Cache.run lru2
    [Cache.OpSet (Num 0) "a" "X" (plain (Some 1%nat));
     Cache.OpSet (Num 0) "b" "Y" (plain (Some 2%nat))] fresh.

(** A map of three items handed to the constructor ([cache] option). *)
Definition supplied3 : Cache.State string string (list string) :=
  Cache.mkState
    [("a", mkItem "x" Infinity (Num 0) (Some 1%nat));
     ("b", mkItem "y" Infinity (Num 0) (Some 2%nat));
     ("c", mkItem "z" Infinity (Num 0) None)] [] [].

(** The number of items the loop of [set] takes out of a map [m] when the
    capacity is [N]: none while [m] holds fewer than [N] items, else as
    many as leave [N - 1]. *)
Definition excess {A} (N : Z) (m : list A) : nat := (length m - Z.to_nat (N - 1))%nat.

(** A cache that holds one item. *)
Definition one_item : Cache.State string string (list string) :=
  Cache.run lru2 [Cache.OpSet (Num 0) "a" "X" (plain (Some 1%nat))] fresh.

(** The default options: no TTL, no capacity bound, [lru]. *)
Definition unbounded : IOptions := mkOptions Infinity Infinity lru.


(** A key written twice, then deleted. *)
Definition double_push : list (Cache.Op string string) :=
  [Cache.OpSet (Num 0) "a" "X" (plain None);
   Cache.OpSet (Num 0) "a" "Y" (plain None);
   Cache.OpDelete "a"].



(** * Properties *)

(** ** Numbers *)

Lemma num_le_Z (a b : Z) : num_le (Num a) (Num b) = (a <=? b).
Proof. unfold num_le, Qle_bool. cbn. by rewrite !Z.mul_1_r. Qed.

Lemma num_lt_Z (a b : Z) : num_lt (Num a) (Num b) = (a <? b).
Proof.
  unfold num_lt, Qle_bool. cbn. rewrite !Z.mul_1_r.
  by rewrite Z.ltb_antisym.
Qed.

Lemma num_le_true (q r : Q) : num_le (Num q) (Num r) = true <-> (q <= r)%Q.
Proof. apply Qle_bool_iff. Qed.

Lemma num_le_false (q r : Q) : num_le (Num q) (Num r) = false <-> (r < q)%Q.
Proof.
  cbn [num_le]. rewrite <- not_true_iff_false, Qle_bool_iff. split.
  - apply Qnot_le_lt.
  - apply Qlt_not_le.
Qed.

Lemma Q_bound_Z (n : nat) (m : Q) (N : Z) :
  (inject_Z (Z.of_nat n) < m + 1)%Q -> (m == inject_Z N)%Q -> Z.of_nat n <= N.
Proof.
  intros Hlt HN.
  assert (inject_Z (Z.of_nat n) < inject_Z (N + 1))%Q as Hlt'
    by (rewrite inject_Z_plus; change (inject_Z 1) with 1%Q; lra).
  rewrite <- Zlt_Qlt in Hlt'. lia.
Qed.

Lemma num_lt_false (q r : Q) : num_lt (Num q) (Num r) = false <-> (r <= q)%Q.
Proof. cbn [num_lt]. rewrite negb_false_iff. apply Qle_bool_iff. Qed.

(** ** The backing map *)

Section JSMapFacts.
Context {K A : Type} `{EqDecision K}.
Implicit Types (k : K) (a : A) (m : list (K * A)).

Lemma get_Some_elem k a m : JSMap.get k m = Some a -> (k, a) ∈ m.
Proof.
  induction m as [|[k' a'] m IH]; simpl; [done|].
  case_decide as Hk.
  - intros [= ->]. subst. left.
  - intros Hg. right. auto.
Qed.

Lemma get_is_Some k m : is_Some (JSMap.get k m) <-> k ∈ JSMap.keys m.
Proof.
  unfold JSMap.keys. induction m as [|[k' a'] m IH]; simpl.
  - split; [by intros [? ?] | by intros ?%elem_of_nil].
  - case_decide as Hk.
    + subst. split; [intros _; left | eauto].
    + rewrite IH, elem_of_cons. split; [by right | by intros [->|?]].
Qed.

Lemma get_None k m : JSMap.get k m = None <-> k ∉ JSMap.keys m.
Proof. rewrite <- get_is_Some, eq_None_not_Some. done. Qed.

Lemma has_true k m : JSMap.has k m = true <-> is_Some (JSMap.get k m).
Proof. unfold JSMap.has. rewrite bool_decide_eq_true. done. Qed.

Lemma get_elem_wf k a m : JSMap.wf m -> (k, a) ∈ m -> JSMap.get k m = Some a.
Proof.
  unfold JSMap.wf, JSMap.keys.
  induction m as [|[k' a'] m IH]; simpl; [by intros _ ?%elem_of_nil|].
  intros [Hnotin Hnd]%NoDup_cons [Heq|Hin]%elem_of_cons.
  - injection Heq as -> ->. by rewrite decide_True.
  - rewrite decide_False; [auto|].
    intros ->. apply Hnotin. apply list_elem_of_fmap. by exists (k, a).
Qed.

Lemma keys_cons k a m : JSMap.keys ((k, a) :: m) = k :: JSMap.keys m.
Proof. reflexivity. Qed.

Lemma keys_remove k m : JSMap.keys (JSMap.remove k m) = filter (λ x, x ≠ k) (JSMap.keys m).
Proof.
  unfold JSMap.keys, JSMap.remove.
  induction m as [|[k' a'] m IH]; [done|].
  rewrite fmap_cons, !filter_cons. simpl.
  case_decide; [rewrite fmap_cons; simpl; f_equal|]; exact IH.
Qed.

Lemma wf_remove k m : JSMap.wf m -> JSMap.wf (JSMap.remove k m).
Proof. unfold JSMap.wf. rewrite keys_remove. apply NoDup_filter. Qed.

Lemma length_remove_le k m : (length (JSMap.remove k m) <= length m)%nat.
Proof. apply length_filter. Qed.

Lemma length_remove_lt k a m :
  JSMap.get k m = Some a -> (length (JSMap.remove k m) < length m)%nat.
Proof.
  unfold JSMap.remove.
  induction m as [|[k' a'] m IH]; simpl; [done|].
  rewrite filter_cons. simpl. case_decide as Hk.
  - intros _. rewrite decide_False by (intros Hn; by apply Hn).
    pose proof (length_filter (λ p : K * A, p.1 ≠ k) m). lia.
  - intros Hg. rewrite decide_True by done. simpl. apply IH in Hg. lia.
Qed.

Lemma remove_notin k m : k ∉ JSMap.keys m -> JSMap.remove k m = m.
Proof.
  unfold JSMap.keys, JSMap.remove.
  induction m as [|[k' a'] m IH]; [done|].
  rewrite fmap_cons, not_elem_of_cons. simpl. intros [Hne Hnotin].
  rewrite filter_cons. simpl. rewrite decide_True by done. by rewrite IH.
Qed.

Lemma remove_head_wf k a m : JSMap.wf ((k, a) :: m) -> JSMap.remove k ((k, a) :: m) = m.
Proof.
  unfold JSMap.wf, JSMap.keys. rewrite fmap_cons. simpl.
  intros [Hnotin _]%NoDup_cons.
  unfold JSMap.remove. rewrite filter_cons. simpl.
  rewrite decide_False by (intros Hn; by apply Hn).
  by apply remove_notin.
Qed.

Lemma get_remove k k' m :
  JSMap.get k' (JSMap.remove k m) = if decide (k' = k) then None else JSMap.get k' m.
Proof.
  unfold JSMap.remove.
  induction m as [|[k1 a1] m IH]; simpl; [by case_decide|].
  rewrite filter_cons. simpl.
  destruct (decide (k1 ≠ k)) as [Hne|Heq]; simpl.
  - destruct (decide (k1 = k')) as [->|Hne']; [by rewrite decide_False|done].
  - apply dec_stable in Heq. subst k1. rewrite IH.
    destruct (decide (k' = k)) as [->|Hne']; [done|].
    by rewrite decide_False.
Qed.

Lemma keys_set k a m :
  JSMap.keys (JSMap.set k a m) =
  if decide (k ∈ JSMap.keys m) then JSMap.keys m else JSMap.keys m ++ [k].
Proof.
  unfold JSMap.keys.
  induction m as [|[k' a'] m IH]; [done|].
  cbn [JSMap.set]. rewrite (fmap_cons fst (k', a') m). cbn [fst].
  destruct (decide (k' = k)) as [->|Hne].
  - rewrite decide_True; [done | left].
  - rewrite fmap_cons, IH. cbn [fst].
    destruct (decide (k ∈ m.*1)) as [Hin|Hnotin].
    + rewrite decide_True; [done | by right].
    + rewrite decide_False; [done|]. rewrite not_elem_of_cons. done.
Qed.

Lemma wf_set k a m : JSMap.wf m -> JSMap.wf (JSMap.set k a m).
Proof.
  unfold JSMap.wf. rewrite keys_set. case_decide as Hin; [done|].
  intros Hnd. apply NoDup_app. split_and!; [done| |apply NoDup_singleton].
  intros x Hx ->%list_elem_of_singleton. done.
Qed.

Lemma length_set_le k a m : (length (JSMap.set k a m) <= S (length m))%nat.
Proof.
  induction m as [|[k' a'] m IH]; simpl; [lia|].
  case_decide; simpl; lia.
Qed.

Lemma length_set_present k a m :
  k ∈ JSMap.keys m -> length (JSMap.set k a m) = length m.
Proof.
  intros Hin. pose proof (keys_set k a m) as Hk.
  rewrite decide_True in Hk by done.
  apply (f_equal length) in Hk. unfold JSMap.keys in Hk.
  by rewrite !length_fmap in Hk.
Qed.

Lemma set_absent k a m : k ∉ JSMap.keys m -> JSMap.set k a m = m ++ [(k, a)].
Proof.
  unfold JSMap.keys.
  induction m as [|[k' a'] m IH]; [done|].
  rewrite fmap_cons, not_elem_of_cons. simpl. intros [Hne Hnotin].
  rewrite decide_False by done. by rewrite IH.
Qed.

Lemma get_set k k' a m :
  JSMap.get k' (JSMap.set k a m) = if decide (k' = k) then Some a else JSMap.get k' m.
Proof.
  induction m as [|[k1 a1] m IH]; simpl.
  - destruct (decide (k = k')) as [->|Hne]; [by rewrite decide_True|].
    by rewrite decide_False.
  - destruct (decide (k1 = k)) as [->|Hne]; simpl.
    + destruct (decide (k = k')) as [->|Hne']; [by rewrite decide_True|].
      by rewrite decide_False.
    + destruct (decide (k1 = k')) as [->|Hne']; [by rewrite decide_False|].
      apply IH.
Qed.

Lemma get_filter_wf (P : K * A -> Prop) `{!∀ x, Decision (P x)} k a m :
  JSMap.wf m -> JSMap.get k m = Some a ->
  JSMap.get k (filter P m) = if decide (P (k, a)) then Some a else None.
Proof.
  unfold JSMap.wf.
  induction m as [|[k' a'] m IH]; [done|].
  rewrite keys_cons. intros [Hnotin Hnd]%NoDup_cons. cbn [JSMap.get].
  rewrite filter_cons. destruct (decide (k' = k)) as [->|Hne].
  - intros [= ->]. destruct (decide (P (k, a))) as [HP|HP].
    + cbn [JSMap.get]. by rewrite decide_True.
    + apply get_None. intros Hin. apply Hnotin.
      unfold JSMap.keys in *. apply list_elem_of_fmap in Hin as (p & -> & Hp).
      apply list_elem_of_filter in Hp as [_ Hp]. apply list_elem_of_fmap. by exists p.
  - intros Hg. destruct (decide (P (k', a'))).
    + cbn [JSMap.get]. rewrite decide_False by done. by apply IH.
    + by apply IH.
Qed.

Lemma length_remove_wf k m :
  JSMap.wf m -> k ∈ JSMap.keys m -> S (length (JSMap.remove k m)) = length m.
Proof.
  unfold JSMap.wf.
  induction m as [|[k' a'] m IH]; [by intros _ ?%elem_of_nil|].
  rewrite keys_cons. intros [Hnotin Hnd]%NoDup_cons Hin.
  destruct (decide (k' = k)) as [->|Hne].
  - rewrite remove_head_wf; [done|]. unfold JSMap.wf. rewrite keys_cons.
    by apply NoDup_cons.
  - apply elem_of_cons in Hin as [->|Hin]; [done|].
    unfold JSMap.remove. rewrite filter_cons_True by done. cbn [length].
    f_equal. by apply IH.
Qed.

End JSMapFacts.

(** ** The methods, as equations on states *)

Ltac unfold_monad :=
  unfold mbind, mret, M_bind, M_ret, gets, modify, throw in *; cbn beta iota in *.

Section CacheFacts.
Context {K V Q : Type} `{EqDecision K} `{LRUQueue K Q}.
Implicit Types (c : Cache.State K V Q) (k key : K) (it item : IItem V) (o : IOptions).

Lemma state_eta c : Cache.mkState (Cache.cache c) (Cache.lruQueue c) (Cache.disposed c) = c.
Proof. by destruct c. Qed.

Lemma peekItem_eq k c : Cache.peekItem (Some k) c = (Ret (JSMap.get k (Cache.cache c)), c).
Proof. reflexivity. Qed.

Lemma peek_eq k c : Cache.peek k c = (Ret (value <$> JSMap.get k (Cache.cache c)), c).
Proof. reflexivity. Qed.

Lemma delete_eq k c :
  Cache.delete k c =
  match JSMap.get k (Cache.cache c) with
  | Some it => (Ret true, Cache.removed k it c)
  | None => (Throw TypeError, c)
  end.
Proof.
  unfold Cache.delete, Cache.disposeKey, Cache.peekItem. unfold_monad. simpl.
  destruct (JSMap.get k (Cache.cache c)) as [it|] eqn:Hg; [|done].
  assert (JSMap.has k (Cache.cache c) = true) as Hhas
    by (apply has_true; eauto).
  unfold Cache.removed.
  destruct (dispose it) as [d|]; simpl; rewrite Hhas; [done|].
  by rewrite app_nil_r.
Qed.

Lemma deleteOldestItem_eq c :
  Cache.deleteOldestItem c =
  match Cache.cache c with
  | [] => (Ret tt, c)
  | (k, it) :: _ => (Ret tt, Cache.removed k it c)
  end.
Proof.
  unfold Cache.deleteOldestItem. unfold_monad.
  destruct (Cache.cache c) as [|[k it] m] eqn:Hc; simpl; [done|].
  rewrite delete_eq, Hc. simpl. by rewrite decide_True.
Qed.

Lemma deleteLeastRecentlyUsedItem_eq c :
  Cache.deleteLeastRecentlyUsedItem c =
  let c' := Cache.with_lruQueue (λ _, (lq_shift (Cache.lruQueue c)).2) c in
  match (lq_shift (Cache.lruQueue c)).1 with
  | Some k =>
      match JSMap.get k (Cache.cache c) with
      | Some it => (Ret true, Cache.removed k it c')
      | None => (Throw TypeError, c')
      end
  | None => (Throw TypeError, c')
  end.
Proof.
  unfold Cache.deleteLeastRecentlyUsedItem, Cache.disposeKey, Cache.peekItem.
  unfold_monad. simpl.
  destruct (lq_shift (Cache.lruQueue c)) as [[k|] q]; simpl; [|done].
  destruct (JSMap.get k (Cache.cache c)) as [it|] eqn:Hg; [|done].
  assert (JSMap.has k (Cache.cache c) = true) as Hhas
    by (apply has_true; eauto).
  unfold Cache.removed.
  destruct (dispose it) as [d|]; simpl; rewrite Hhas; [done|].
  by rewrite app_nil_r.
Qed.

Lemma evictLoop_eq o fuel c :
  Cache.evictLoop o fuel c =
  if Cache.full o c then
    match fuel with
    | O => (OutOfFuel, c)
    | S fuel' =>
        match (match evictExceedingItemsBy o with
               | age => Cache.deleteOldestItem c
               | lru => Cache.void Cache.deleteLeastRecentlyUsedItem c
               end) with
        | (Ret _, c') => Cache.evictLoop o fuel' c'
        | (Throw e, c') => (Throw e, c')
        | (OutOfFuel, c') => (OutOfFuel, c')
        end
    end
  else (Ret tt, c).
Proof.
  destruct fuel; simpl; unfold Cache.full; [done|].
  destruct (num_le _ _); [|done].
  unfold_monad. destruct (evictExceedingItemsBy o); done.
Qed.

Lemma set_eq o now key v opts c :
  Cache.set o now key v opts c =
  if num_le (default (defaultTTL o) (ttl opts)) (Num 0) then (Ret false, c)
  else
    match Cache.evictLoop o (S (length (Cache.cache c))) c with
    | (Ret _, c') => (Ret true, Cache.inserted key (Cache.new_item o now v opts) c')
    | (Throw e, c') => (Throw e, c')
    | (OutOfFuel, c') => (OutOfFuel, c')
    end.
Proof.
  unfold Cache.set. destruct (num_le _ (Num 0)); [done|].
  unfold Cache.size. unfold_monad.
  destruct (Cache.evictLoop _ _ _) as [[[]|e|] c']; done.
Qed.

Lemma getItem_eq key ts c :
  Cache.getItem key ts c =
  match JSMap.get key (Cache.cache c) with
  | Some it =>
      if num_le (expireAfterTimestamp it) ts
      then (Ret None, Cache.removed key it c)
      else (Ret (Some it), Cache.with_lruQueue (lq_touch key) c)
  | None => (Ret None, Cache.with_lruQueue (lq_touch key) c)
  end.
Proof.
  unfold Cache.getItem. unfold_monad.
  destruct (JSMap.get key (Cache.cache c)) as [it|] eqn:Hg; [|done].
  destruct (num_le _ _); [|done].
  by rewrite delete_eq, Hg.
Qed.

Lemma get_eq key ts c :
  Cache.get key ts c =
  match JSMap.get key (Cache.cache c) with
  | Some it =>
      if num_le (expireAfterTimestamp it) ts
      then (Ret None, Cache.removed key it c)
      else (Ret (Some (value it)), Cache.with_lruQueue (lq_touch key) c)
  | None => (Ret None, Cache.with_lruQueue (lq_touch key) c)
  end.
Proof.
  unfold Cache.get. unfold mbind at 1. unfold M_bind. rewrite getItem_eq.
  destruct (JSMap.get key (Cache.cache c)) as [it|]; [|done].
  by destruct (num_le _ _).
Qed.

Lemma setTTL_eq key t ts c :
  Cache.setTTL key t ts c =
  match JSMap.get key (Cache.cache c) with
  | Some it =>
      (Ret (num_add ts t),
       Cache.with_cache
         (JSMap.set key (mkItem (value it) (num_add ts t) (storageTimestamp it) (dispose it))) c)
  | None => (Throw TypeError, c)
  end.
Proof.
  unfold Cache.setTTL. unfold_monad.
  by destruct (JSMap.get key (Cache.cache c)).
Qed.

(** *** The loop of [set] *)

Lemma full_nonempty o c : Cache.valid o -> Cache.full o c = true -> Cache.cache c ≠ [].
Proof.
  unfold Cache.valid, Cache.full. intros Hv Hf Hnil. rewrite Hnil in Hf.
  destruct (maximalItemCount o) as [n|]; [|done].
  apply num_lt_false in Hv. apply num_le_true in Hf.
  cbn [length] in Hf. change (inject_Z (Z.of_nat 0)) with 0%Q in Hf. lra.
Qed.

Lemma valid_Z o (N : Z) : Cache.valid o -> maximalItemCount o = Num N -> 1 <= N.
Proof.
  unfold Cache.valid. intros Hv HN. rewrite HN in Hv.
  change (Num 1) with (Num (inject_Z 1)) in Hv. rewrite num_lt_Z in Hv.
  by apply Z.ltb_ge.
Qed.

Lemma evictLoop_not_full o fuel c c' :
  Cache.evictLoop o fuel c = (Ret tt, c') -> Cache.full o c' = false.
Proof.
  revert c. induction fuel as [|fuel IH]; intros c; rewrite evictLoop_eq;
    destruct (Cache.full o c) eqn:Hf; try congruence.
  destruct (match evictExceedingItemsBy o with
            | age => Cache.deleteOldestItem c
            | lru => Cache.void Cache.deleteLeastRecentlyUsedItem c
            end) as [[[]|e|] c1]; try done.
  apply IH.
Qed.

(** One iteration of the loop on a full cache: it throws with the map
    as it was, or returns having removed an item. *)
Lemma evict_one o c :
  Cache.valid o -> Cache.full o c = true ->
  match (match evictExceedingItemsBy o with
         | age => Cache.deleteOldestItem c
         | lru => Cache.void Cache.deleteLeastRecentlyUsedItem c
         end) with
  | (Ret _, c') => (length (Cache.cache c') < length (Cache.cache c))%nat
  | (Throw _, c') => Cache.cache c' = Cache.cache c
  | (OutOfFuel, _) => False
  end.
Proof.
  intros Hv Hf. pose proof (full_nonempty _ _ Hv Hf) as Hne.
  destruct (evictExceedingItemsBy o).
  - rewrite deleteOldestItem_eq.
    destruct (Cache.cache c) as [|[k it] m] eqn:Hc; [done|]. simpl. rewrite Hc.
    apply (length_remove_lt k it). simpl. by rewrite decide_True.
  - unfold Cache.void. unfold_monad. rewrite deleteLeastRecentlyUsedItem_eq. simpl.
    destruct (lq_shift (Cache.lruQueue c)).1 as [k|]; [|done].
    destruct (JSMap.get k (Cache.cache c)) as [it|] eqn:Hg; [|done].
    simpl. by apply (length_remove_lt k it).
Qed.

(** The loop ends within as many iterations as the map has items: the
    bound [set] runs it with is never reached. *)
Lemma evictLoop_fuel o fuel c :
  Cache.valid o -> (length (Cache.cache c) < fuel)%nat ->
  (Cache.evictLoop o fuel c).1 ≠ OutOfFuel.
Proof.
  intros Hv. revert c. induction fuel as [|fuel IH]; intros c Hlen; [lia|].
  rewrite evictLoop_eq. destruct (Cache.full o c) eqn:Hf; [|done].
  pose proof (evict_one o c Hv Hf) as Hone.
  destruct (match evictExceedingItemsBy o with
            | age => Cache.deleteOldestItem c
            | lru => Cache.void Cache.deleteLeastRecentlyUsedItem c
            end) as [[[]|e|] c1]; try done.
  apply IH. lia.
Qed.

(** More iterations than needed change nothing. *)
Lemma evictLoop_fuel_mono o fuel fuel' c :
  (fuel <= fuel')%nat ->
  (Cache.evictLoop o fuel c).1 ≠ OutOfFuel ->
  Cache.evictLoop o fuel' c = Cache.evictLoop o fuel c.
Proof.
  revert fuel' c. induction fuel as [|fuel IH]; intros fuel' c Hle.
  - rewrite !(evictLoop_eq o _ c). destruct (Cache.full o c); [done|].
    by destruct fuel'.
  - destruct fuel' as [|fuel']; [lia|].
    rewrite !(evictLoop_eq o (S _) c). destruct (Cache.full o c); [|done].
    destruct (match evictExceedingItemsBy o with
              | age => Cache.deleteOldestItem c
              | lru => Cache.void Cache.deleteLeastRecentlyUsedItem c
              end) as [[[]|e|] c1]; try done.
    apply IH. lia.
Qed.

(** *** Every call is a sequence of elementary steps *)

Lemma esteps_one o c r c' : Cache.estep o c r c' -> Cache.esteps o c r c'.
Proof.
  intros Hs. rewrite <- (app_nil_r r).
  eapply Cache.esteps_step; [done | constructor].
Qed.

Lemma esteps_trans o c1 r1 c2 r2 c3 :
  Cache.esteps o c1 r1 c2 -> Cache.esteps o c2 r2 c3 -> Cache.esteps o c1 (r1 ++ r2) c3.
Proof.
  induction 1 as [|c1 r1 c2 r1' c2' Hs _ IH]; [done|].
  intros H23. rewrite <- app_assoc. eapply Cache.esteps_step; eauto.
Qed.

Lemma evictLoop_esteps o fuel c :
  Cache.valid o -> Cache.esteps o c [] (Cache.evictLoop o fuel c).2.
Proof.
  intros Hv. revert c. induction fuel as [|fuel IH]; intros c;
    rewrite evictLoop_eq; destruct (Cache.full o c) eqn:Hf; try constructor.
  pose proof (full_nonempty _ _ Hv Hf) as Hne.
  destruct (evictExceedingItemsBy o).
  - rewrite deleteOldestItem_eq.
    destruct (Cache.cache c) as [|[k it] m] eqn:Hc; [done|].
    eapply (Cache.esteps_step _ _ [] _ []); [|apply IH].
    apply Cache.estep_remove. rewrite Hc. simpl. by rewrite decide_True.
  - unfold Cache.void. unfold_monad. rewrite deleteLeastRecentlyUsedItem_eq. simpl.
    destruct (lq_shift (Cache.lruQueue c)) as [ok q] eqn:Hq. simpl.
    destruct ok as [k|].
    + destruct (JSMap.get k (Cache.cache c)) as [it|] eqn:Hg.
      * eapply (Cache.esteps_step _ _ [] _ []); [|apply IH].
        by apply Cache.estep_shift_remove.
      * apply esteps_one. by eapply Cache.estep_shift_fail.
    + apply esteps_one. by eapply Cache.estep_shift_fail.
Qed.

Lemma evictExpiredLoop_esteps o ts entries c :
  Cache.esteps o c [] (Cache.evictExpiredLoop ts entries c).2.
Proof.
  revert c. induction entries as [|[k it] rest IH]; intros c; simpl; [constructor|].
  unfold_monad. destruct (num_le (expireAfterTimestamp it) ts); [|apply IH].
  rewrite delete_eq. destruct (JSMap.get k (Cache.cache c)) as [it'|] eqn:Hg; [|constructor].
  eapply (Cache.esteps_step _ _ [] _ []); [|apply IH].
  by apply Cache.estep_remove.
Qed.

Lemma exec_esteps o op c :
  Cache.valid o ->
  ∃ regs, Cache.esteps o c regs (Cache.step o c op) ∧
          (regs = [] ∨ regs = Cache.op_callbacks op).
Proof.
  intros Hv. unfold Cache.step.
  destruct op as [now key v opts|key|key|key ts|key ts|ts|key|key| | |key t ts];
    unfold Cache.exec, Cache.void; try (unfold mbind at 1; unfold M_bind).
  - rewrite set_eq. destruct (num_le _ (Num 0)).
    { exists []. split; [constructor | by left]. }
    pose proof (evictLoop_esteps o (S (length (Cache.cache c))) c Hv) as Hloop.
    destruct (Cache.evictLoop o _ c) as [[[]|e|] c1] eqn:Hl; cbn [snd] in *.
    + exists (option_list (set_dispose opts)). split; [|by right].
      change (option_list (set_dispose opts)) with ([] ++ option_list (set_dispose opts)).
      eapply esteps_trans; [done|]. apply esteps_one.
      apply (Cache.estep_insert o c1 key (Cache.new_item o now v opts)).
      by eapply evictLoop_not_full.
    + exists []. split; [done | by left].
    + exists []. split; [done | by left].
  - exists []. split; [constructor | by left].
  - exists []. split; [constructor | by left].
  - exists []. split; [|by left]. rewrite getItem_eq.
    destruct (JSMap.get key (Cache.cache c)) as [it|] eqn:Hg.
    + destruct (num_le _ _); apply esteps_one; by constructor.
    + apply esteps_one; by constructor.
  - exists []. split; [|by left]. rewrite get_eq.
    destruct (JSMap.get key (Cache.cache c)) as [it|] eqn:Hg.
    + destruct (num_le _ _); apply esteps_one; by constructor.
    + apply esteps_one; by constructor.
  - exists []. split; [|by left].
    unfold Cache.evictExpiredItems. unfold_monad.
    pose proof (evictExpiredLoop_esteps o ts (Cache.cache c) c) as Hloop.
    by destruct (Cache.evictExpiredLoop ts _ c) as [[[]|e|] c1].
  - exists []. split; [constructor | by left].
  - exists []. split; [|by left]. rewrite delete_eq.
    destruct (JSMap.get key (Cache.cache c)) as [it|] eqn:Hg; [|constructor].
    apply esteps_one; by constructor.
  - exists []. split; [|by left]. apply esteps_one.
    apply (Cache.estep_clear o c).
  - exists []. split; [constructor | by left].
  - exists []. split; [|by left]. rewrite setTTL_eq.
    destruct (JSMap.get key (Cache.cache c)) as [it|] eqn:Hg; [|constructor].
    apply esteps_one. by apply Cache.estep_setTTL.
Qed.

(** *** Invariants of the elementary steps *)

Lemma esteps_inv o (P : Cache.State K V Q -> Prop) :
  (∀ c r c', Cache.estep o c r c' -> P c -> P c') ->
  ∀ c r c', Cache.esteps o c r c' -> P c -> P c'.
Proof. intros Hstep c r c'. induction 1; eauto. Qed.

Lemma run_inv o (P : Cache.State K V Q -> Prop) :
  Cache.valid o ->
  (∀ c r c', Cache.estep o c r c' -> P c -> P c') ->
  ∀ ops c, P c -> P (Cache.run o ops c).
Proof.
  intros Hv Hstep ops. unfold Cache.run.
  induction ops as [|op ops IH]; intros c HP; simpl; [done|].
  apply IH. destruct (exec_esteps o op c Hv) as (regs & Hs & _).
  eapply esteps_inv; eauto.
Qed.

Lemma run_snoc o ops op c :
  Cache.run o (ops ++ [op]) c = Cache.step o (Cache.run o ops c) op.
Proof. unfold Cache.run. by rewrite foldl_app. Qed.

Lemma constructor_inr dttl m cache0 strat o c0 :
  Cache.constructor dttl m cache0 strat = inr (o, c0) ->
  Cache.valid o ∧
  o = mkOptions (default Infinity dttl) (default Infinity m) (default lru strat) ∧
  c0 = Cache.mkState (default [] cache0) lq_new [].
Proof.
  unfold Cache.constructor, Cache.valid.
  destruct (num_lt (default Infinity dttl) (Num 0)); [done|].
  destruct (num_lt (default Infinity m) (Num 1)) eqn:Hm; [done|].
  intros [= <- <-]. done.
Qed.

Lemma constructor_fields dttl m cache0 strat o c0 :
  Cache.constructor dttl m cache0 strat = inr (o, c0) ->
  Cache.valid o ∧
  defaultTTL o = default Infinity dttl ∧
  maximalItemCount o = default Infinity m ∧
  evictExceedingItemsBy o = default lru strat ∧
  c0 = Cache.mkState (default [] cache0) lq_new [].
Proof. by intros (Hv & -> & ->)%constructor_inr. Qed.

Lemma estep_capacity_Q o (m : QArith_base.Q) c r c' :
  maximalItemCount o = Num m ->
  Cache.estep o c r c' ->
  (inject_Z (Z.of_nat (length (Cache.cache c))) < m + 1)%Q ->
  (inject_Z (Z.of_nat (length (Cache.cache c'))) < m + 1)%Q.
Proof.
  intros Hm Hs Hc.
  assert (∀ a b : nat, (a <= b)%nat -> (inject_Z (Z.of_nat a) <= inject_Z (Z.of_nat b))%Q)
    as Hmono by (intros a b Hab; rewrite <- Zle_Qle; lia).
  destruct Hs as [c k it Hg|c k q it Hq Hg|c k q Hq Hg Hne|c key item Hf|c k|c|c k it e Hg];
    simpl; try done.
  - pose proof (Hmono _ _ (length_remove_le k (Cache.cache c))). lra.
  - pose proof (Hmono _ _ (length_remove_le k (Cache.cache c))). lra.
  - unfold Cache.full in Hf. rewrite Hm in Hf. apply num_le_false in Hf.
    pose proof (Hmono _ _ (length_set_le key item (Cache.cache c))) as Hle.
    rewrite Nat2Z.inj_succ, <- Z.add_1_r, inject_Z_plus in Hle.
    change (inject_Z 1) with 1%Q in Hle. lra.
  - pose proof (Hmono _ _ (Nat.le_0_l (length (Cache.cache c)))). simpl in *. lra.
  - rewrite length_set_present; [done|]. apply get_is_Some. eauto.
Qed.

Lemma estep_wf o c r c' :
  Cache.estep o c r c' -> JSMap.wf (Cache.cache c) -> JSMap.wf (Cache.cache c').
Proof.
  intros Hs Hc. destruct Hs; simpl; try done.
  - by apply wf_remove.
  - by apply wf_remove.
  - by apply wf_set.
  - apply NoDup_nil_2.
  - by apply wf_set.
Qed.

Lemma run_wf o ops c :
  Cache.valid o -> JSMap.wf (Cache.cache c) -> JSMap.wf (Cache.cache (Cache.run o ops c)).
Proof.
  intros Hv. apply (run_inv o (λ c, JSMap.wf (Cache.cache c)) Hv).
  intros ? ? ?. apply estep_wf.
Qed.

(** *** Callbacks: run at most once, and only on removal *)

Lemma submseteq_NoDup {A} (l1 l2 : list A) : l1 ⊆+ l2 -> NoDup l2 -> NoDup l1.
Proof.
  intros [l Hl]%submseteq_Permutation Hnd. rewrite Hl in Hnd.
  by apply NoDup_app in Hnd as (? & _ & _).
Qed.

Lemma callbacks_cons (p : K * IItem V) m :
  Cache.callbacks (p :: m) = option_list (dispose p.2) ++ Cache.callbacks m.
Proof. unfold Cache.callbacks. simpl. by destruct (dispose p.2). Qed.

Lemma callbacks_remove_sub k (m : list (K * IItem V)) :
  Cache.callbacks (JSMap.remove k m) ⊆+ Cache.callbacks m.
Proof.
  unfold JSMap.remove. induction m as [|p m IH]; [done|].
  rewrite filter_cons, callbacks_cons. case_decide.
  - rewrite callbacks_cons. by apply submseteq_skips_l.
  - by apply submseteq_inserts_l.
Qed.

Lemma callbacks_remove k it (m : list (K * IItem V)) :
  JSMap.get k m = Some it ->
  option_list (dispose it) ++ Cache.callbacks (JSMap.remove k m) ⊆+ Cache.callbacks m.
Proof.
  induction m as [|[k' it'] m IH]; [done|]. cbn [JSMap.get].
  unfold JSMap.remove. rewrite filter_cons, callbacks_cons. cbn [fst snd].
  destruct (decide (k' = k)) as [->|Hne].
  - intros [= ->]. rewrite decide_False by (intros Hn; by apply Hn).
    apply submseteq_skips_l, callbacks_remove_sub.
  - intros Hg. rewrite decide_True by done. rewrite callbacks_cons. cbn [snd].
    rewrite (assoc_L (++)), (comm (++) (option_list (dispose it))), <- (assoc_L (++)).
    apply submseteq_skips_l. by apply IH.
Qed.

Lemma callbacks_set k it (m : list (K * IItem V)) :
  Cache.callbacks (JSMap.set k it m) ⊆+ Cache.callbacks m ++ option_list (dispose it).
Proof.
  induction m as [|[k' it'] m IH]; cbn [JSMap.set].
  - by rewrite callbacks_cons, app_nil_r.
  - case_decide; rewrite !callbacks_cons; cbn [snd].
    + rewrite (comm (++) _ (option_list (dispose it))).
      apply submseteq_skips_l, submseteq_inserts_l. done.
    + rewrite <- (assoc_L (++)). by apply submseteq_skips_l.
Qed.

Lemma callbacks_set_same k it it' (m : list (K * IItem V)) :
  JSMap.get k m = Some it -> dispose it' = dispose it ->
  Cache.callbacks (JSMap.set k it' m) = Cache.callbacks m.
Proof.
  intros Hg Hd. induction m as [|[k1 it1] m IH]; [done|].
  cbn [JSMap.get JSMap.set] in *. case_decide.
  - injection Hg as ->. rewrite !callbacks_cons. cbn [snd]. by rewrite Hd.
  - rewrite !callbacks_cons. cbn [snd]. by rewrite IH.
Qed.

Lemma estep_known o c r c' :
  Cache.estep o c r c' -> Cache.known c' ⊆+ Cache.known c ++ r.
Proof.
  intros Hs. unfold Cache.known.
  destruct Hs as [c k it Hg|c k q it Hq Hg|c k q Hq Hg Hne|c key item Hf|c k|c|c k it e Hg];
    cbn [Cache.removed Cache.inserted Cache.with_lruQueue Cache.with_cache
         Cache.cache Cache.disposed]; rewrite ?app_nil_r; try done.
  - rewrite <- (assoc_L (++)). apply submseteq_skips_l. by apply callbacks_remove.
  - rewrite <- (assoc_L (++)). apply submseteq_skips_l. by apply callbacks_remove.
  - rewrite <- (assoc_L (++)). apply submseteq_skips_l. apply callbacks_set.
  - by apply submseteq_inserts_r.
  - by erewrite callbacks_set_same.
Qed.

Lemma esteps_known o c r c' :
  Cache.esteps o c r c' -> Cache.known c' ⊆+ Cache.known c ++ r.
Proof.
  induction 1 as [c|c1 r1 c2 r2 c3 Hs _ IH]; [by rewrite app_nil_r|].
  etrans; [exact IH|]. rewrite (assoc_L (++)).
  apply submseteq_skips_r. by eapply estep_known.
Qed.

Lemma run_known o ops c :
  Cache.valid o ->
  Cache.known (Cache.run o ops c) ⊆+ Cache.known c ++ concat (Cache.op_callbacks <$> ops).
Proof.
  intros Hv. revert c. unfold Cache.run.
  induction ops as [|op ops IH]; intros c; simpl; [by rewrite app_nil_r|].
  etrans; [apply IH|]. rewrite (assoc_L (++)). apply submseteq_skips_r.
  destruct (exec_esteps o op c Hv) as (regs & Hs & [->| ->]).
  - apply esteps_known in Hs. rewrite app_nil_r in Hs. by apply submseteq_inserts_r.
  - by apply esteps_known in Hs.
Qed.

(** *** No call runs into the iteration bound *)

Lemma evictExpiredLoop_terminates ts entries c :
  (Cache.evictExpiredLoop ts entries c).1 ≠ OutOfFuel.
Proof.
  revert c. induction entries as [|[k it] rest IH]; intros c; simpl; [done|].
  unfold_monad. destruct (num_le (expireAfterTimestamp it) ts); [|apply IH].
  rewrite delete_eq. destruct (JSMap.get k (Cache.cache c)); [apply IH|done].
Qed.

Lemma exec_terminates o op c : Cache.valid o -> (Cache.exec o op c).1 ≠ OutOfFuel.
Proof.
  intros Hv.
  destruct op as [now key v opts|key|key|key ts|key ts|ts|key|key| | |key t ts];
    unfold Cache.exec, Cache.void; try (unfold mbind at 1; unfold M_bind); try done.
  - rewrite set_eq. destruct (num_le _ (Num 0)); [done|].
    pose proof (evictLoop_fuel o (S (length (Cache.cache c))) c Hv) as Hfuel.
    destruct (Cache.evictLoop o _ c) as [[[]|e|] c1]; try done.
    apply Hfuel. lia.
  - rewrite getItem_eq. destruct (JSMap.get key (Cache.cache c)); [|done].
    by destruct (num_le _ _).
  - rewrite get_eq. destruct (JSMap.get key (Cache.cache c)); [|done].
    by destruct (num_le _ _).
  - unfold Cache.evictExpiredItems. unfold_monad.
    pose proof (evictExpiredLoop_terminates ts (Cache.cache c) c).
    by destruct (Cache.evictExpiredLoop ts _ c) as [[[]|e|] c1].
  - rewrite delete_eq. by destruct (JSMap.get key (Cache.cache c)).
  - rewrite setTTL_eq. by destruct (JSMap.get key (Cache.cache c)).
Qed.

(** C1. Capacity invariant, for a finite [maximalItemCount] [m] that need
    not be an integer (the constructor refuses only [m < 1]): a cache
    constructed with [m] and the default (empty) backing map holds fewer
    than [m + 1] items after any sequence of calls of its public methods
    (so after each call of any sequence of [set] calls), and therefore at
    most [N] items when [m] is the integer [N]: [size()] returns a count
    below [m + 1]; and no call loops forever, whatever the recency queue
    does. *)
Theorem capacity_invariant (dttl : option number) (strat : option CacheStrategy)
    (m : QArith_base.Q) o (c0 : Cache.State K V Q) (ops : list (Cache.Op K V)) :
  Cache.constructor dttl (Some (Num m)) None strat = inr (o, c0) ->
  (∃ n, Cache.size (Cache.run o ops c0) = (Ret n, Cache.run o ops c0) ∧
        (inject_Z (Z.of_nat n) < m + 1)%Q ∧
        ∀ N : Z, (m == inject_Z N)%Q -> Z.of_nat n <= N) ∧
  (∀ op, (Cache.exec o op (Cache.run o ops c0)).1 ≠ OutOfFuel).
Proof.
  intros (Hv & -> & ->)%constructor_inr. split.
  - eexists. split; [reflexivity|].
    assert (inject_Z (Z.of_nat (length (Cache.cache
              (Cache.run (mkOptions (default Infinity dttl) (Num m) (default lru strat)) ops
                 (Cache.mkState (K:=K) (V:=V) [] lq_new []))))) < m + 1)%Q as Hlt.
    { apply (run_inv _ (λ c, (inject_Z (Z.of_nat (length (Cache.cache c))) < m + 1)%Q) Hv).
      + intros c r c'. by apply estep_capacity_Q.
      + unfold Cache.valid in Hv. cbn [maximalItemCount default] in Hv.
        apply num_lt_false in Hv. change (0 < m + 1)%Q. lra. }
    split; [exact Hlt|].
    intros N HN. eapply Q_bound_Z; [exact Hlt | exact HN].
  - intros op. by apply exec_terminates.
Qed.

(** *** Single calls *)

Lemma empty_not_full o c : Cache.valid o -> Cache.cache c = [] -> Cache.full o c = false.
Proof.
  intros Hv Hc. destruct (Cache.full o c) eqn:Hf; [|done].
  by destruct (full_nonempty o c Hv Hf).
Qed.

Lemma delete_untracked key c :
  JSMap.get key (Cache.cache c) = None -> Cache.delete key c = (Throw TypeError, c).
Proof. intros Hg. by rewrite delete_eq, Hg. Qed.

(** C7. [delete] of a key that is not tracked: on a freshly constructed
    cache, [delete(key)] does not return "no removal occurred"; the private
    [dispose] reads [item.dispose] of the missing item and the call ends
    in a [TypeError] (the cache is left as it was). *)
Theorem delete_untracked_throws (key : K) :
  Cache.delete key (Cache.mkState ([] : list (K * IItem V)) (lq_new : Q) []) =
  (Throw TypeError, Cache.mkState [] lq_new []).
Proof. by apply delete_untracked. Qed.

(** C8. [setTTL]: on a tracked key the item's [expireAfterTimestamp]
    becomes [beginningFromTimestamp + ttl], whatever it was, and that
    number is returned; value, storage timestamp, callback, the other
    items, the order of the map, the queue and the log are untouched.  On
    an untracked key the call throws and changes nothing. *)
Theorem setTTL_contract key (t ts : number) c :
  (∀ it, JSMap.get key (Cache.cache c) = Some it ->
     ∃ c', Cache.setTTL key t ts c = (Ret (num_add ts t), c') ∧
           JSMap.get key (Cache.cache c') =
             Some (mkItem (value it) (num_add ts t) (storageTimestamp it) (dispose it)) ∧
           (∀ k, k ≠ key -> JSMap.get k (Cache.cache c') = JSMap.get k (Cache.cache c)) ∧
           JSMap.keys (Cache.cache c') = JSMap.keys (Cache.cache c) ∧
           Cache.lruQueue c' = Cache.lruQueue c ∧
           Cache.disposed c' = Cache.disposed c) ∧
  (JSMap.get key (Cache.cache c) = None ->
     Cache.setTTL key t ts c = (Throw TypeError, c)).
Proof.
  rewrite setTTL_eq. split.
  - intros it Hg. rewrite Hg. eexists. split; [done|].
    cbn [Cache.with_cache Cache.cache Cache.lruQueue Cache.disposed].
    split_and!; try done.
    + by rewrite get_set, decide_True.
    + intros k Hne. by rewrite get_set, decide_False.
    + rewrite keys_set, decide_True; [done|]. apply get_is_Some. eauto.
  - by intros ->.
Qed.

(** C4. TTL boundary.  On a freshly constructed cache, an item written
    with an effective TTL of 5000 and storage timestamp 10000 gets
    [expireAfterTimestamp] 15000.  [get] at 14999 returns its value and
    leaves map and log alone; [get] at 15000 returns [undefined], having
    removed the item and run its callback; [peek], which takes no
    timestamp and reads no clock, returns the value and leaves the state
    as it is, whatever the time. *)
Theorem ttl_lazy_expiry (dttl m : option number) (strat : option CacheStrategy)
    o (c0 : Cache.State K V Q) (now : number) key (v : V) (opts : ISetItemOptions) :
  Cache.constructor dttl m None strat = inr (o, c0) ->
  default (defaultTTL o) (ttl opts) = Num 5000 ->
  default now (set_storageTimestamp opts) = Num 10000 ->
  ∃ c1,
    Cache.set o now key v opts c0 = (Ret true, c1) ∧
    Cache.peekItem (Some key) c1 =
      (Ret (Some (mkItem v (Num 15000) (Num 10000) (set_dispose opts))), c1) ∧
    (∃ c2, Cache.get key (Num 14999) c1 = (Ret (Some v), c2) ∧
           Cache.cache c2 = Cache.cache c1 ∧ Cache.disposed c2 = []) ∧
    (∃ c3, Cache.get key (Num 15000) c1 = (Ret None, c3) ∧
           Cache.cache c3 = [] ∧ Cache.disposed c3 = option_list (set_dispose opts)) ∧
    Cache.peek key c1 = (Ret (Some v), c1).
Proof.
  intros (Hv & -> & ->)%constructor_inr Httl Hst.
  rewrite set_eq, Httl. cbn [num_le Z.leb Z.compare].
  rewrite evictLoop_eq, empty_not_full by done.
  eexists. split; [done|].
  rewrite peekItem_eq, peek_eq, !get_eq.
  cbn [Cache.inserted Cache.cache JSMap.set JSMap.get from_option]. rewrite decide_True by done.
  unfold Cache.new_item. rewrite Httl, Hst.
  cbn [expireAfterTimestamp value num_lt num_add num_le Z.add Pos.add Pos.succ].
  split_and!; try done.
  - eexists. split; [reflexivity|]. done.
  - eexists. split; [reflexivity|].
    cbn [Cache.removed Cache.inserted Cache.cache Cache.disposed dispose app JSMap.set].
    split; [|done]. unfold JSMap.remove. rewrite filter_cons, decide_False; [done|].
    cbn [fst]. intros Hn. by apply Hn.
Qed.

(** *** Eviction by age *)

Lemma get_fmap_entry (g : K -> IItem V) k (l : list K) :
  JSMap.get k ((λ x, (x, g x)) <$> l) = if decide (k ∈ l) then Some (g k) else None.
Proof.
  induction l as [|x l IH]; [done|].
  rewrite fmap_cons. cbn [JSMap.get]. destruct (decide (x = k)) as [->|Hne].
  - rewrite decide_True; [done | left].
  - rewrite IH. destruct (decide (k ∈ l)) as [Hin|Hnotin].
    + rewrite decide_True; [done | by right].
    + rewrite decide_False; [done|]. rewrite not_elem_of_cons. by split.
Qed.

(** In a cache that evicts by age, the map after writing distinct keys
    [ks] into the empty cache holds the last [N] of them, in order. *)
Lemma age_run o (N : nat) (now : K -> number) (v : K -> V) (opts : K -> ISetItemOptions)
    (ks : list K) c0 :
  Cache.valid o -> maximalItemCount o = Num (Z.of_nat N) ->
  evictExceedingItemsBy o = age ->
  Cache.cache c0 = [] ->
  NoDup ks -> (∀ k, k ∈ ks -> Cache.ttl_ok o (opts k)) ->
  Cache.cache (Cache.run o ((λ k, Cache.OpSet (now k) k (v k) (opts k)) <$> ks) c0) =
  drop (length ks - N) ((λ k, (k, Cache.new_item o (now k) (v k) (opts k))) <$> ks).
Proof.
  intros Hv HN Hage Hc0.
  assert (1 <= N)%nat as HN1.
  { pose proof (valid_Z _ _ Hv HN). lia. }
  induction ks as [|k ks IH] using rev_ind; intros Hnd Hok; [done|].
  apply NoDup_app in Hnd as (Hnd & Hdisj & _).
  assert (k ∉ ks) as Hk by (intros Hin; apply (Hdisj k Hin); left).
  rewrite fmap_snoc, run_snoc.
  set (c := Cache.run o _ c0) in *.
  set (entry := λ k, (k, Cache.new_item o (now k) (v k) (opts k))) in *.
  assert (Cache.cache c = drop (length ks - N) (entry <$> ks)) as Hc.
  { apply IH; [done|]. intros k' Hin. apply Hok, elem_of_app. by left. }
  assert (JSMap.wf (Cache.cache c)) as Hwf.
  { unfold c. apply run_wf; [done|]. rewrite Hc0. apply NoDup_nil_2. }
  assert (length (Cache.cache c) = length ks - (length ks - N))%nat as Hlen
    by (by rewrite Hc, length_drop, length_fmap).
  assert (∀ m, m `sublist_of` Cache.cache c -> k ∉ JSMap.keys m) as Hfresh.
  { intros m Hsub Hin. apply Hk. unfold JSMap.keys in Hin.
    apply list_elem_of_fmap in Hin as ([k' it'] & -> & Hin).
    eapply elem_of_sublist in Hin; [|exact Hsub]. rewrite Hc in Hin.
    apply subseteq_drop in Hin. apply list_elem_of_fmap in Hin as (x & [= -> _] & Hx). exact Hx. }
  assert (Cache.ttl_ok o (opts k)) as Hokk by (apply Hok, elem_of_app; right; left).
  unfold Cache.step, Cache.exec, Cache.void. unfold mbind at 1. unfold M_bind.
  rewrite set_eq. unfold Cache.ttl_ok in Hokk. rewrite Hokk, evictLoop_eq.
  rewrite length_app, fmap_snoc. cbn [length]. unfold mret, M_ret.
  destruct (Cache.full o c) eqn:Hf.
  - unfold Cache.full in Hf. rewrite HN, num_le_Z in Hf. apply Z.leb_le in Hf.
    rewrite Hage, deleteOldestItem_eq.
    destruct (Cache.cache c) as [|[k0 it0] m'] eqn:Hcc; [simpl in *; lia|].
    rewrite evictLoop_eq.
    assert (Cache.cache (Cache.removed k0 it0 c) = m') as Hrem.
    { cbn [Cache.removed Cache.cache]. rewrite Hcc. by apply remove_head_wf. }
    assert (Cache.full o (Cache.removed k0 it0 c) = false) as ->.
    { unfold Cache.full. rewrite HN, Hrem, num_le_Z. simpl in *. apply Z.leb_gt. lia. }
    cbn [snd Cache.inserted Cache.cache]. rewrite Hrem.
    rewrite set_absent by (apply Hfresh; by apply sublist_cons).
    assert (m' = drop (length ks + 1 - N) (entry <$> ks)) as ->.
    { replace (length ks + 1 - N)%nat with ((length ks - N) + 1)%nat by (simpl in *; lia).
      rewrite <- drop_drop, <- Hc. done. }
    rewrite drop_app_le; [done|]. rewrite length_fmap. lia.
  - unfold Cache.full in Hf. rewrite HN, num_le_Z in Hf. apply Z.leb_gt in Hf.
    cbn [snd Cache.inserted Cache.cache].
    rewrite set_absent by (by apply Hfresh).
    replace (length ks + 1 - N)%nat with 0%nat by lia.
    rewrite Hc. replace (length ks - N)%nat with 0%nat by lia. done.
Qed.

(** C3. Eviction by age.  A cache with strategy [age] and capacity [N]
    that is given [N+1] writes with distinct keys [k1], ..., [k(N+1)] (each
    with a positive TTL) and nothing else no longer holds [k1] and holds
    every other key with its value.  The victim is chosen from the map
    alone: [deleteOldestItem] removes the first entry of the map whatever
    the recency queue is, and a read that returns an item leaves the map
    as it was. *)
Theorem age_policy (N : nat) (dttl : option number) o (c0 : Cache.State K V Q)
    (now : K -> number) (v : K -> V) (opts : K -> ISetItemOptions)
    (k1 : K) (rest : list K) :
  Cache.constructor dttl (Some (Num (Z.of_nat N))) None (Some age) = inr (o, c0) ->
  length rest = N ->
  NoDup (k1 :: rest) ->
  (∀ k, k ∈ k1 :: rest -> Cache.ttl_ok o (opts k)) ->
  (∃ c, c = Cache.run o ((λ k, Cache.OpSet (now k) k (v k) (opts k)) <$> k1 :: rest) c0 ∧
        Cache.peek k1 c = (Ret None, c) ∧
        ∀ k, k ∈ rest -> Cache.peek k c = (Ret (Some (v k)), c)) ∧
  (∀ c k it l, Cache.cache c = (k, it) :: l -> JSMap.wf (Cache.cache c) ->
     ∃ c', Cache.deleteOldestItem c = (Ret tt, c') ∧ Cache.cache c' = l) ∧
  (∀ c key ts it c', Cache.getItem key ts c = (Ret (Some it), c') ->
     Cache.cache c' = Cache.cache c).
Proof.
  intros (Hv & _ & Hm & Hs & ->)%constructor_fields Hlen Hnd Hok.
  cbn [from_option id] in *. split_and!.
  - set (c := Cache.run _ _ _). exists c. split; [done|].
    assert (Cache.cache c =
            (λ k, (k, Cache.new_item o (now k) (v k) (opts k))) <$> rest) as Hrun.
    { unfold c. rewrite (age_run o N) by done.
      cbn [length]. by replace (S (length rest) - N)%nat with 1%nat by lia. }
    apply NoDup_cons in Hnd as [Hk1 _].
    rewrite !peek_eq, Hrun. split.
    + rewrite (get_fmap_entry (λ k, Cache.new_item _ (now k) (v k) (opts k))).
      by rewrite decide_False.
    + intros k Hin. rewrite peek_eq, Hrun.
      rewrite (get_fmap_entry (λ k, Cache.new_item _ (now k) (v k) (opts k))).
      by rewrite decide_True.
  - intros c k it l Hc Hwf. rewrite deleteOldestItem_eq, Hc.
    eexists. split; [done|]. cbn [Cache.removed Cache.cache].
    rewrite Hc in *. by apply remove_head_wf.
  - intros c key ts it c'. rewrite getItem_eq.
    destruct (JSMap.get key (Cache.cache c)) as [it'|]; [|done].
    destruct (num_le _ _); [done|]. by intros [= _ <-].
Qed.

(** *** The sweep *)

Lemma filter_ext_in {A} (P1 P2 : A -> Prop)
    `{!∀ x, Decision (P1 x), !∀ x, Decision (P2 x)} (l : list A) :
  (∀ x, x ∈ l -> P1 x <-> P2 x) -> filter P1 l = filter P2 l.
Proof.
  induction l as [|a l IH]; intros Hiff; [done|].
  rewrite !filter_cons.
  assert (P1 a <-> P2 a) as Ha by (apply Hiff; left).
  rewrite IH by (intros x Hx; apply Hiff; by right).
  destruct (decide (P1 a)), (decide (P2 a)); tauto || done.
Qed.

Lemma filter_all {A} (P : A -> Prop) `{!∀ x, Decision (P x)} (l : list A) :
  (∀ x, P x) -> filter P l = l.
Proof.
  intros HP. induction l as [|a l IH]; [done|].
  rewrite filter_cons_True by done. by f_equal.
Qed.

Lemma evictExpiredLoop_eq ts (es : list (K * IItem V)) c :
  NoDup es.*1 ->
  (∀ k it, (k, it) ∈ es -> JSMap.get k (Cache.cache c) = Some it) ->
  Cache.evictExpiredLoop ts es c =
  (Ret tt,
   Cache.mkState
     (filter (λ p, p.1 ∉ JSMap.keys (filter (Cache.expired ts) es)) (Cache.cache c))
     (foldl (λ q k, lq_delete k q) (Cache.lruQueue c)
            (JSMap.keys (filter (Cache.expired ts) es)))
     (Cache.disposed c ++ Cache.callbacks (filter (Cache.expired ts) es))).
Proof.
  revert c. induction es as [|[k it] es IH]; intros c Hnd Hget.
  - cbn [Cache.evictExpiredLoop]. rewrite filter_nil. unfold JSMap.keys, Cache.callbacks.
    cbn [fmap list_fmap omap list_omap foldl]. rewrite app_nil_r, filter_all.
    + by rewrite state_eta.
    + intros x. apply not_elem_of_nil.
  - rewrite fmap_cons in Hnd. apply NoDup_cons in Hnd as [Hk Hnd]. cbn [fst] in Hk.
    cbn [Cache.evictExpiredLoop]. unfold mbind at 1. unfold M_bind.
    destruct (decide (Cache.expired ts (k, it))) as [Hexp|Hexp].
    + rewrite filter_cons_True by done. unfold Cache.expired in Hexp.
      cbn [snd] in Hexp. rewrite Hexp.
      unfold mbind at 1. unfold M_bind. rewrite delete_eq.
      rewrite (Hget k it) by left. unfold mret at 1. unfold M_ret.
      rewrite IH; [|done|].
      * cbn [Cache.removed Cache.cache Cache.lruQueue Cache.disposed].
        rewrite !keys_cons. cbn [foldl].
        rewrite callbacks_cons. cbn [snd]. rewrite (assoc_L (++)).
        f_equal. f_equal. unfold JSMap.remove. rewrite list_filter_filter.
        apply list_filter_iff. intros [k' it']. cbn [fst].
        rewrite not_elem_of_cons. tauto.
      * intros k' it' Hin. cbn [Cache.removed Cache.cache].
        rewrite get_remove, decide_False; [apply Hget; by right|].
        intros ->. apply Hk. apply list_elem_of_fmap. by exists (k, it').
    + rewrite filter_cons_False by done. unfold Cache.expired in Hexp.
      cbn [snd] in Hexp. apply not_true_is_false in Hexp. rewrite Hexp.
      unfold mret at 1. unfold M_ret.
      apply IH; [done|]. intros k' it' Hin. apply Hget. by right.
Qed.

Lemma evictExpiredItems_eq ts c :
  JSMap.wf (Cache.cache c) ->
  Cache.evictExpiredItems ts c =
  (Ret tt,
   Cache.mkState
     (filter (λ p, ¬ Cache.expired ts p) (Cache.cache c))
     (foldl (λ q k, lq_delete k q) (Cache.lruQueue c)
            (JSMap.keys (filter (Cache.expired ts) (Cache.cache c))))
     (Cache.disposed c ++ Cache.callbacks (filter (Cache.expired ts) (Cache.cache c)))).
Proof.
  intros Hwf. unfold Cache.evictExpiredItems. unfold mbind, M_bind, gets.
  rewrite evictExpiredLoop_eq; [|done|by intros; apply get_elem_wf].
  f_equal. f_equal. apply filter_ext_in. intros [k it] Hin. cbn [fst].
  unfold JSMap.keys. rewrite list_elem_of_fmap. split.
  - intros Hnot Hexp. apply Hnot. exists (k, it). split; [done|].
    by apply list_elem_of_filter.
  - intros Hnexp ([k' it'] & Hk & [Hexp Hin']%list_elem_of_filter). cbn [fst] in Hk. subst k'.
    apply Hnexp. apply (get_elem_wf _ _ _ Hwf) in Hin, Hin'. congruence.
Qed.

(** *** The loop of [set] on a map that holds exactly the capacity

    One pass: the item the strategy picks is disposed and removed, and
    the loop stops. *)
Lemma evictLoop_exact o (N : Z) c fuel victim it :
  maximalItemCount o = Num N -> 1 <= N ->
  JSMap.wf (Cache.cache c) ->
  Z.of_nat (length (Cache.cache c)) = N ->
  match evictExceedingItemsBy o with
  | age => head (JSMap.keys (Cache.cache c))
  | lru => (lq_shift (Cache.lruQueue c)).1
  end = Some victim ->
  JSMap.get victim (Cache.cache c) = Some it ->
  Cache.evictLoop o (S fuel) c =
    (Ret tt,
     Cache.removed victim it
       match evictExceedingItemsBy o with
       | age => c
       | lru => Cache.with_lruQueue (λ _, (lq_shift (Cache.lruQueue c)).2) c
       end).
Proof.
  intros HN HN1 Hwf Hlen Hvictim Hg.
  assert (∀ c1, Cache.cache c1 = JSMap.remove victim (Cache.cache c) ->
                Cache.full o c1 = false) as Hnf.
  { intros c1 Hc1. unfold Cache.full. rewrite HN, Hc1.
    assert (victim ∈ JSMap.keys (Cache.cache c)) as Hin by (apply get_is_Some; eauto).
    pose proof (length_remove_wf victim (Cache.cache c) Hwf Hin) as Hl.
    rewrite num_le_Z. apply Z.leb_gt. lia. }
  rewrite evictLoop_eq.
  assert (Cache.full o c = true) as ->.
  { unfold Cache.full. rewrite HN, num_le_Z. apply Z.leb_le. lia. }
  destruct (evictExceedingItemsBy o).
  - rewrite deleteOldestItem_eq.
    destruct (Cache.cache c) as [|[k0 it0] m0] eqn:Hc; [done|].
    rewrite keys_cons in Hvictim. injection Hvictim as ->.
    cbn [JSMap.get] in Hg. rewrite decide_True in Hg by done. injection Hg as ->.
    rewrite evictLoop_eq, Hnf; [done|]. cbn [Cache.removed Cache.cache]. by rewrite Hc.
  - unfold Cache.void. unfold_monad. rewrite deleteLeastRecentlyUsedItem_eq.
    cbn zeta. rewrite Hvictim, Hg.
    rewrite evictLoop_eq, Hnf; done.
Qed.

(** C5. Dispose semantics.  Callbacks are identified by number and logged
    when they run (a callback is taken to return normally and not to call
    back into the cache), and a call sequence that registers each number
    with one item only stands for "every item has its own callback".  On
    a cache constructed with the default (empty) map: (1) after any
    sequence of calls no callback has run twice, and a callback that has
    run belongs to a [set] of the sequence and to no item still in the
    map; (2) [peekItem], [peek] and [has] leave the state alone, and
    [getItem]/[get] of an item that is not expired return it with map and
    log unchanged; (3) the two statements by which [set] writes the item
    run no callback (the log after [set] is the log after its eviction
    loop): when the key still holds an item after the loop, so that the
    write replaces it, the callback of that item has not run, and a [set]
    on a present key of a cache below capacity replaces the item and runs
    nothing; (4) [clear] empties the map and runs nothing.  The callbacks
    do run on the removal paths: (5) [delete] of a key of the map runs the
    callback of its item and removes it; (6) [getItem]/[get] of an expired
    item do the same and return nothing; (7) the sweep runs the callbacks
    of the expired items, in map order; (8) a [set] on a map that holds
    exactly [maximalItemCount] items runs the callback of the item the
    strategy picks (the first of the map, or the one [shift()] hands out)
    and removes that item before it writes, also when the picked item is
    the one under the key being written. *)
Theorem dispose_semantics (dttl m : option number) (strat : option CacheStrategy)
    o (c0 : Cache.State K V Q) :
  Cache.constructor dttl m None strat = inr (o, c0) ->
  (∀ ops : list (Cache.Op K V),
     NoDup (concat (Cache.op_callbacks <$> ops)) ->
     NoDup (Cache.disposed (Cache.run o ops c0)) ∧
     ∀ d, d ∈ Cache.disposed (Cache.run o ops c0) ->
          d ∈ concat (Cache.op_callbacks <$> ops) ∧
          d ∉ Cache.callbacks (Cache.cache (Cache.run o ops c0))) ∧
  (∀ c key, (Cache.peekItem (Some key) c).2 = c ∧ (Cache.peek key c).2 = c ∧
            (Cache.has key c).2 = c) ∧
  (∀ c key ts it,
     JSMap.get key (Cache.cache c) = Some it ->
     num_le (expireAfterTimestamp it) ts = false ->
     ∃ c', Cache.getItem key ts c = (Ret (Some it), c') ∧
           Cache.get key ts c = (Ret (Some (value it)), c') ∧
           Cache.disposed c' = Cache.disposed c ∧ Cache.cache c' = Cache.cache c) ∧
  (∀ c now key v opts,
     Cache.ttl_ok o opts ->
     Cache.disposed (Cache.set o now key v opts c).2 =
     Cache.disposed (Cache.evictLoop o (S (length (Cache.cache c))) c).2) ∧
  (∀ c now key v opts old d,
     NoDup (Cache.known c) ->
     Cache.ttl_ok o opts ->
     JSMap.get key (Cache.cache (Cache.evictLoop o (S (length (Cache.cache c))) c).2)
       = Some old ->
     dispose old = Some d ->
     d ∉ Cache.disposed (Cache.set o now key v opts c).2) ∧
  (∀ c now key v opts old,
     JSMap.get key (Cache.cache c) = Some old ->
     Cache.full o c = false ->
     Cache.ttl_ok o opts ->
     ∃ c', Cache.set o now key v opts c = (Ret true, c') ∧
           Cache.disposed c' = Cache.disposed c ∧
           JSMap.get key (Cache.cache c') = Some (Cache.new_item o now v opts)) ∧
  (∀ c, ∃ c', Cache.clear c = (Ret tt, c') ∧ Cache.cache c' = [] ∧
              Cache.disposed c' = Cache.disposed c) ∧
  (∀ c key it,
     JSMap.get key (Cache.cache c) = Some it ->
     ∃ c', Cache.delete key c = (Ret true, c') ∧
           Cache.disposed c' = Cache.disposed c ++ option_list (dispose it) ∧
           JSMap.get key (Cache.cache c') = None) ∧
  (∀ c key ts it,
     JSMap.get key (Cache.cache c) = Some it ->
     num_le (expireAfterTimestamp it) ts = true ->
     ∃ c', Cache.getItem key ts c = (Ret None, c') ∧
           Cache.get key ts c = (Ret None, c') ∧
           Cache.disposed c' = Cache.disposed c ++ option_list (dispose it) ∧
           JSMap.get key (Cache.cache c') = None) ∧
  (∀ c ts,
     JSMap.wf (Cache.cache c) ->
     ∃ c', Cache.evictExpiredItems ts c = (Ret tt, c') ∧
           Cache.disposed c' =
             Cache.disposed c ++ Cache.callbacks (filter (Cache.expired ts) (Cache.cache c))) ∧
  (∀ c (N : Z) now key v opts victim it,
     maximalItemCount o = Num N ->
     JSMap.wf (Cache.cache c) ->
     Z.of_nat (length (Cache.cache c)) = N ->
     Cache.ttl_ok o opts ->
     match evictExceedingItemsBy o with
     | age => head (JSMap.keys (Cache.cache c))
     | lru => (lq_shift (Cache.lruQueue c)).1
     end = Some victim ->
     JSMap.get victim (Cache.cache c) = Some it ->
     ∃ c', Cache.set o now key v opts c = (Ret true, c') ∧
           Cache.disposed c' = Cache.disposed c ++ option_list (dispose it) ∧
           Cache.cache c' =
             JSMap.set key (Cache.new_item o now v opts) (JSMap.remove victim (Cache.cache c))).
Proof.
  intros (Hv & _ & _ & _ & ->)%constructor_fields. cbn [from_option]. split_and!.
  - intros ops Hnd.
    pose proof (run_known o ops (Cache.mkState [] lq_new []) Hv) as Hk.
    cbn [Cache.known Cache.cache Cache.disposed Cache.callbacks omap app] in Hk.
    change (omap _ []) with (@nil DisposeFunction) in Hk. rewrite app_nil_l in Hk.
    pose proof (submseteq_NoDup _ _ Hk Hnd) as Hnd'.
    unfold Cache.known in Hnd'. apply NoDup_app in Hnd' as (Hd & Hdisj & _).
    split; [done|]. intros d Hin. split; [|by apply Hdisj].
    eapply elem_of_submseteq; [|exact Hk].
    unfold Cache.known. apply elem_of_app. by left.
  - done.
  - intros c key ts it Hg Hexp. rewrite getItem_eq, get_eq, Hg, Hexp. eauto.
  - intros c now key v opts Hok. rewrite set_eq. unfold Cache.ttl_ok in Hok. rewrite Hok.
    by destruct (Cache.evictLoop _ _ c) as [[[]|e|] c1].
  - intros c now key v opts old d Hnd Hok Hg Hd.
    pose proof (evictLoop_esteps o (S (length (Cache.cache c))) c Hv) as Hsteps.
    apply esteps_known in Hsteps. rewrite app_nil_r in Hsteps.
    apply submseteq_NoDup in Hsteps; [|done].
    apply NoDup_app in Hsteps as (_ & Hdisj & _).
    rewrite set_eq. unfold Cache.ttl_ok in Hok. rewrite Hok.
    assert (d ∈ Cache.callbacks (Cache.cache (Cache.evictLoop o (S (length (Cache.cache c))) c).2))
      as Hin.
    { apply list_elem_of_omap. exists (key, old). split; [|done]. by apply get_Some_elem. }
    intros Hfired. eapply Hdisj; [|exact Hin].
    by destruct (Cache.evictLoop _ _ c) as [[[]|e|] c1].
  - intros c now key v opts old Hg Hf Hok. rewrite set_eq.
    unfold Cache.ttl_ok in Hok. rewrite Hok, evictLoop_eq, Hf.
    eexists. split_and!; [done..|]. cbn. by rewrite get_set, decide_True.
  - intros c. eexists. split_and!; done.
  - intros c key it Hg. rewrite delete_eq, Hg. eexists. split_and!; [done..|].
    cbn [Cache.removed Cache.cache]. by rewrite get_remove, decide_True.
  - intros c key ts it Hg Hexp. rewrite getItem_eq, get_eq, Hg, Hexp.
    eexists. split_and!; [done..|].
    cbn [Cache.removed Cache.cache]. by rewrite get_remove, decide_True.
  - intros c ts Hwf. rewrite evictExpiredItems_eq by done. eexists. split; done.
  - intros c N now key v opts victim it HN Hwf Hlen Hok Hvictim Hg.
    rewrite set_eq. unfold Cache.ttl_ok in Hok. rewrite Hok.
    rewrite (evictLoop_exact o N c _ victim it) by (done || by eapply valid_Z).
    eexists. split_and!; [done | by destruct (evictExceedingItemsBy o)
                               | by destruct (evictExceedingItemsBy o)].
Qed.

End CacheFacts.

(** ** The sweep over the list queue *)

Section ListQueueFacts.
Context {K V : Type} {K_eq_dec : EqDecision K}.
Implicit Types (c : Cache.State K V (list K)) (k key : K) (it item : IItem V) (o : IOptions).

Lemma foldl_lq_delete (ks q : list K) :
  foldl (λ q k, lq_delete k q) q ks = filter (λ x, x ∉ ks) q.
Proof.
  revert q. induction ks as [|k ks IH]; intros q; cbn [foldl].
  - symmetry. apply filter_all. intros x. apply not_elem_of_nil.
  - rewrite IH. cbn [lq_delete list_LRUQueue]. rewrite list_filter_filter.
    apply list_filter_iff. intros x. rewrite not_elem_of_cons. tauto.
Qed.

(** C6. Sweep: on any cache (whose map, being a map, has no key twice)
    [evictExpiredItems(t)] returns; the map it leaves is the old map
    without the entries whose [expireAfterTimestamp <= t], the others
    unchanged and in their order; the callbacks of the removed entries
    have been run, in map order; and the recency queue is the old queue
    without the removed keys, the others in their order. *)
Theorem sweep_correctness (ts : number) c :
  JSMap.wf (Cache.cache c) ->
  ∃ c', Cache.evictExpiredItems ts c = (Ret tt, c') ∧
        Cache.cache c' = filter (λ p, ¬ Cache.expired ts p) (Cache.cache c) ∧
        (∀ k it, JSMap.get k (Cache.cache c) = Some it ->
           JSMap.get k (Cache.cache c') =
           if decide (Cache.expired ts (k, it)) then None else Some it) ∧
        Cache.disposed c' =
          Cache.disposed c ++ Cache.callbacks (filter (Cache.expired ts) (Cache.cache c)) ∧
        Cache.lruQueue c' =
          filter (λ k, k ∉ JSMap.keys (filter (Cache.expired ts) (Cache.cache c)))
                 (Cache.lruQueue c).
Proof.
  intros Hwf. rewrite evictExpiredItems_eq by done.
  eexists. split; [reflexivity|].
  cbn [Cache.cache Cache.lruQueue Cache.disposed]. split_and!; [done| |done|].
  - intros k it Hg. rewrite (get_filter_wf _ k it) by done.
    destruct (decide (Cache.expired ts (k, it))).
    + by rewrite decide_False by tauto.
    + by rewrite decide_True.
  - apply foldl_lq_delete.
Qed.

End ListQueueFacts.

(** * The statements on the sample caches *)

Lemma capacity_invariant_witness :
  Cache.constructor None (Some (Num 2)) None (Some lru) = inr (lru2, fresh) ∧
  (∃ n, Cache.size (Cache.run lru2 lru_test fresh) = (Ret n, Cache.run lru2 lru_test fresh) ∧
        (inject_Z (Z.of_nat n) < 2 + 1)%Q ∧
        ∀ N : Z, (2 == inject_Z N)%Q -> Z.of_nat n <= N) ∧
  (∀ op, (Cache.exec lru2 op (Cache.run lru2 lru_test fresh)).1 ≠ OutOfFuel).
Proof.
  split; [reflexivity|].
  apply (capacity_invariant None (Some lru) 2 lru2 fresh lru_test). reflexivity.
Defined.

(** C1, as the spec words it ("at most [N] items" for every finite [N]), is
    refuted by a capacity that is not an integer: the constructor accepts
    [maximalItemCount = 1.5] (it refuses only values below 1), the loop of
    [set] tests [size >= 1.5], which is false at size 1, and the second
    [set] leaves 2 items, more than 1.5. *)
Lemma fractional_capacity_counterexample :
  Cache.constructor None (Some (Num (3 # 2))) None (Some age) = inr (age_frac, fresh) ∧
  let c := Cache.run age_frac
             [Cache.OpSet (Num 0) "a" "X" (plain None);
              Cache.OpSet (Num 0) "b" "Y" (plain None)] fresh in
  Cache.size c = (Ret 2%nat, c) ∧ num_le (Num 2) (maximalItemCount age_frac) = false.
Proof. split; [reflexivity|]. split; reflexivity. Qed.

Lemma age_policy_witness :
  Cache.constructor None (Some (Num (Z.of_nat 2))) None (Some age) = inr (age2, fresh) ∧
  NoDup ["k1"; "k2"; "k3"] ∧
  ∃ c, c = Cache.run age2
             ((λ k, Cache.OpSet (Num 0) k k (plain None)) <$> ["k1"; "k2"; "k3"]) fresh ∧
       Cache.peek "k1" c = (Ret None, c) ∧
       ∀ k, k ∈ ["k2"; "k3"] -> Cache.peek k c = (Ret (Some k), c).
Proof.
  assert (NoDup ["k1"; "k2"; "k3"]) as Hnd by (apply (bool_decide_unpack _); reflexivity).
  split; [reflexivity|]. split; [exact Hnd|].
  apply (age_policy 2 None age2 fresh (λ _, Num 0) (λ k, k) (λ _, plain None) "k1" ["k2"; "k3"]);
    [reflexivity | reflexivity | exact Hnd | intros; reflexivity].
Defined.

Lemma ttl_lazy_expiry_witness :
  Cache.constructor (Some (Num 5000)) (Some (Num 4)) None (Some lru) =
    inr (createCache lru, fresh) ∧
  ∃ c1,
    Cache.set (createCache lru) (Num 10000) "x" "y" (plain (Some 1%nat)) fresh = (Ret true, c1) ∧
    Cache.peekItem (Some "x") c1 =
      (Ret (Some (mkItem "y" (Num 15000) (Num 10000) (Some 1%nat))), c1) ∧
    (∃ c2, Cache.get "x" (Num 14999) c1 = (Ret (Some "y"), c2) ∧
           Cache.cache c2 = Cache.cache c1 ∧ Cache.disposed c2 = []) ∧
    (∃ c3, Cache.get "x" (Num 15000) c1 = (Ret None, c3) ∧
           Cache.cache c3 = [] ∧ Cache.disposed c3 = [1%nat]) ∧
    Cache.peek "x" c1 = (Ret (Some "y"), c1).
Proof.
  split; [reflexivity|].
  apply (ttl_lazy_expiry (Some (Num 5000)) (Some (Num 4)) (Some lru) (createCache lru) fresh
           (Num 10000) "x" "y" (plain (Some 1%nat))); reflexivity.
Defined.

Lemma dispose_semantics_witness :
  Cache.constructor None (Some (Num 2)) None (Some lru) = inr (lru2, fresh) ∧
  NoDup (concat (Cache.op_callbacks <$> lru_test)) ∧
  NoDup (Cache.disposed (Cache.run lru2 lru_test fresh)) ∧
  ∃ c', Cache.delete "a" two_items = (Ret true, c') ∧
        Cache.disposed c' = Cache.disposed two_items ++ [1%nat] ∧
        JSMap.get "a" (Cache.cache c') = None.
Proof.
  assert (NoDup (concat (Cache.op_callbacks <$> lru_test))) as Hnd
    by (apply (bool_decide_unpack _); reflexivity).
  assert (Cache.constructor None (Some (Num 2)) None (Some lru) = inr (lru2, fresh)) as Hc
    by reflexivity.
  assert (JSMap.get "a" (Cache.cache two_items) = Some (mkItem "X" Infinity (Num 0) (Some 1%nat)))
    as Hg by reflexivity.
  split; [exact Hc|]. split; [exact Hnd|].
  destruct (dispose_semantics None (Some (Num 2)) (Some lru) lru2 fresh Hc)
    as (Honce & _ & _ & _ & _ & _ & _ & Hdel & _).
  split; [exact (proj1 (Honce lru_test Hnd))|].
  exact (Hdel two_items "a" _ Hg).
Defined.

Lemma sweep_correctness_witness :
  JSMap.wf (Cache.cache two_ttls) ∧
  ∃ c', Cache.evictExpiredItems (Num 15000) two_ttls = (Ret tt, c') ∧
        JSMap.keys (Cache.cache c') = ["d"] ∧
        Cache.disposed c' = [1%nat] ∧
        Cache.lruQueue c' = ["d"].
Proof.
  assert (JSMap.wf (Cache.cache two_ttls)) as Hwf
    by (apply (bool_decide_unpack _); reflexivity).
  split; [exact Hwf|].
  destruct (sweep_correctness (Num 15000) two_ttls Hwf) as (c' & Hrun & Hc & _ & Hd & Hq).
  exists c'. rewrite Hc, Hd, Hq. split; [exact Hrun|]. split_and!; reflexivity.
Defined.

Lemma setTTL_contract_witness :
  JSMap.get "a" (Cache.cache two_ttls) = Some (mkItem "x" (Num 15000) (Num 10000) (Some 1%nat)) ∧
  JSMap.get "b" (Cache.cache two_ttls) = None ∧
  (∃ c', Cache.setTTL "a" (Num 100) (Num 100) two_ttls = (Ret (Num 200), c') ∧
         JSMap.get "a" (Cache.cache c') =
           Some (mkItem "x" (Num 200) (Num 10000) (Some 1%nat))) ∧
  Cache.setTTL "b" (Num 100) (Num 100) two_ttls = (Throw TypeError, two_ttls).
Proof.
  destruct (setTTL_contract "a" (Num 100) (Num 100) two_ttls) as [Hset _].
  destruct (setTTL_contract "b" (Num 100) (Num 100) two_ttls) as [_ Hthrow].
  split; [reflexivity|]. split; [reflexivity|]. split.
  - destruct (Hset _ eq_refl) as (c' & Hrun & Hg & _). exists c'. split; [exact Hrun | exact Hg].
  - apply Hthrow. reflexivity.
Defined.

(** At full capacity the victim can be the key that is being written:
    its callback runs and the cache is back at capacity. *)
Example overwrite_evicts_own_key :
  ∃ c', Cache.set lru2 (Num 0) "a" "Z" (plain (Some 3%nat)) two_items = (Ret true, c') ∧
        JSMap.keys (Cache.cache c') = ["b"; "a"] ∧
        Cache.disposed c' = [1%nat].
Proof. eexists. split; [vm_compute; reflexivity|]. split; reflexivity. Qed.

(** C5, as stated, fails: a [set] on a live key can run the callback of
    the item it replaces.  In a cache of capacity 1 that holds ["a"]
    with callback 1, not yet run, [set("a", ...)] first evicts ["a"],
    which runs callback 1, and then writes the new item. *)
Lemma overwrite_runs_callback_counterexample :
  ¬ (∀ (ops : list (Cache.Op string string)) (now : number) (key v : string)
       (opts : ISetItemOptions) (old : IItem string) (d : DisposeFunction),
       JSMap.get key (Cache.cache (Cache.run age1 ops fresh)) = Some old ->
       dispose old = Some d ->
       d ∉ Cache.disposed (Cache.run age1 ops fresh) ->
       Cache.ttl_ok age1 opts ->
       d ∉ Cache.disposed (Cache.set age1 now key v opts (Cache.run age1 ops fresh)).2).
Proof.
  intros Hclaim.
  apply (Hclaim [Cache.OpSet (Num 0) "a" "x" (plain (Some 1%nat))]
           (Num 0) "a" "y" (plain (Some 2%nat))
           (mkItem "x" Infinity (Num 0) (Some 1%nat)) 1%nat);
    [reflexivity | reflexivity | apply not_elem_of_nil | reflexivity |].
  assert (Cache.disposed
            (Cache.set age1 (Num 0) "a" "y" (plain (Some 2%nat))
               (Cache.run age1 [Cache.OpSet (Num 0) "a" "x" (plain (Some 1%nat))] fresh)).2
          = [1%nat]) as -> by reflexivity.
  left.
Qed.

(** * Further properties of the methods *)

Section CacheMethods.
Context {K V Q : Type} `{EqDecision K} `{LRUQueue K Q}.
Implicit Types (c : Cache.State K V Q) (k key : K) (it item : IItem V) (o : IOptions).

Lemma has_eq key c : Cache.has key c = (Ret (JSMap.has key (Cache.cache c)), c).
Proof. reflexivity. Qed.

Lemma has_false key (m : list (K * IItem V)) :
  JSMap.get key m = None -> JSMap.has key m = false.
Proof.
  intros Hg. unfold JSMap.has. apply bool_decide_eq_false. rewrite Hg.
  by intros [? ?].
Qed.

(** X1. The constructor rejects its arguments exactly when [defaultTTL < 0]
    or [maximalItemCount < 1]; otherwise the options are the arguments,
    with [Infinity], [Infinity], [lru] and an empty map for the missing
    ones, and the queue is new.  A [defaultTTL] of 0 passes the check, and
    on such a cache every [set] that names no [ttl] is refused. *)
Theorem constructor_contract (dttl m : option number)
    (cache0 : option (list (K * IItem V))) (strat : option CacheStrategy) :
  (Cache.constructor (Q:=Q) dttl m cache0 strat = inl ConfigError <->
     num_lt (default Infinity dttl) (Num 0) = true ∨
     num_lt (default Infinity m) (Num 1) = true) ∧
  (num_lt (default Infinity dttl) (Num 0) = false ->
   num_lt (default Infinity m) (Num 1) = false ->
   Cache.constructor dttl m cache0 strat =
     inr (mkOptions (default Infinity dttl) (default Infinity m) (default lru strat),
          Cache.mkState (default [] cache0) (lq_new : Q) [])) ∧
  (∀ o (c0 : Cache.State K V Q),
     Cache.constructor (Some (Num 0)) m cache0 strat = inr (o, c0) ->
     ∀ now key v st d c,
       Cache.set o now key v (mkSetOptions None st d) c = (Ret false, c)).
Proof.
  unfold Cache.constructor. split_and!.
  - destruct (num_lt (default Infinity dttl) (Num 0)); [by split; [left|]|].
    destruct (num_lt (default Infinity m) (Num 1)); [by split; [right|]|].
    split; [done | by intros [?|?]].
  - by intros -> ->.
  - intros o c0. cbn [from_option id num_lt Z.ltb Z.compare].
    destruct (num_lt (default Infinity m) (Num 1)); [done|].
    intros [= <- _] now key v st d c. by rewrite set_eq.
Qed.

(** X2. [set] returns [false] exactly when the effective TTL (the [ttl]
    option, else the default TTL) is [<= 0]; it then leaves the cache as
    it is: a full cache is not evicted and no callback runs. *)
Theorem set_refusal o (now : number) key (v : V) (opts : ISetItemOptions) c :
  (¬ Cache.ttl_ok o opts -> Cache.set o now key v opts c = (Ret false, c)) ∧
  (Cache.ttl_ok o opts -> (Cache.set o now key v opts c).1 ≠ Ret false).
Proof.
  unfold Cache.ttl_ok. rewrite set_eq. split.
  - intros ->%not_false_is_true. done.
  - intros ->. by destruct (Cache.evictLoop _ _ c) as [[[]|e|] c1].
Qed.

(** X3. Round trip: after a [set] that returned [true], [peekItem] yields
    the item built from the arguments, [peek] the value, [has] says
    [true], and [get] at a timestamp before the item's expiry returns the
    value and leaves map and log alone. *)
Theorem set_get_roundtrip o (now ts : number) key (v : V) (opts : ISetItemOptions) c c' :
  Cache.set o now key v opts c = (Ret true, c') ->
  Cache.peekItem (Some key) c' = (Ret (Some (Cache.new_item o now v opts)), c') ∧
  Cache.peek key c' = (Ret (Some v), c') ∧
  Cache.has key c' = (Ret true, c') ∧
  (num_le (expireAfterTimestamp (Cache.new_item o now v opts)) ts = false ->
   ∃ c'', Cache.get key ts c' = (Ret (Some v), c'') ∧
          Cache.cache c'' = Cache.cache c' ∧ Cache.disposed c'' = Cache.disposed c').
Proof.
  rewrite set_eq. destruct (num_le _ (Num 0)); [done|].
  destruct (Cache.evictLoop _ _ c) as [[[]|e|] c1]; try done.
  intros [= <-].
  assert (JSMap.get key (Cache.cache (Cache.inserted key (Cache.new_item o now v opts) c1))
          = Some (Cache.new_item o now v opts)) as Hg.
  { cbn [Cache.inserted Cache.cache]. by rewrite get_set, decide_True. }
  rewrite peekItem_eq, peek_eq, has_eq, get_eq, Hg. split_and!; try done.
  - f_equal. f_equal. apply has_true. by rewrite Hg.
  - intros ->. eexists. done.
Qed.

(** X4. An item written with an infinite effective TTL gets
    [expireAfterTimestamp = Infinity]: [get] at any finite timestamp
    returns its value, and a sweep at any finite timestamp keeps it.  The
    comparison is [<=], so [get] at the timestamp [Infinity] removes even
    this item and runs its callback. *)
Theorem infinite_ttl_item o (now : number) key (v : V) (opts : ISetItemOptions) c c' :
  default (defaultTTL o) (ttl opts) = Infinity ->
  JSMap.wf (Cache.cache c') ->
  Cache.set o now key v opts c = (Ret true, c') ->
  (∀ z : Z, ∃ c'', Cache.get key (Num z) c' = (Ret (Some v), c'') ∧
                   Cache.cache c'' = Cache.cache c') ∧
  (∀ z : Z, ∃ c'', Cache.evictExpiredItems (Num z) c' = (Ret tt, c'') ∧
                   Cache.peek key c'' = (Ret (Some v), c'')) ∧
  (∃ c'', Cache.get key Infinity c' = (Ret None, c'') ∧
          JSMap.get key (Cache.cache c'') = None ∧
          Cache.disposed c'' = Cache.disposed c' ++ option_list (set_dispose opts)).
Proof.
  intros Httl Hwf Hset.
  destruct (set_get_roundtrip o now (Num 0) key v opts c c' Hset) as (Hpeek & _ & _ & _).
  rewrite peekItem_eq in Hpeek. injection Hpeek as Hg.
  assert (expireAfterTimestamp (Cache.new_item o now v opts) = Infinity) as Hexp.
  { unfold Cache.new_item. by rewrite Httl. }
  split_and!.
  - intros z. rewrite get_eq, Hg, Hexp. eexists. done.
  - intros z. rewrite evictExpiredItems_eq by done. eexists. split; [done|].
    rewrite peek_eq. cbn [Cache.cache].
    rewrite (get_filter_wf _ key (Cache.new_item o now v opts)) by done.
    rewrite decide_True; [done|]. unfold Cache.expired. cbn [snd]. by rewrite Hexp.
  - rewrite get_eq, Hg, Hexp. eexists. split; [done|].
    cbn [Cache.removed Cache.cache Cache.disposed]. split.
    + by rewrite get_remove, decide_True.
    + done.
Qed.

(** X5. [delete] of a tracked key returns [true], runs the item's callback
    (if it has one) once, and removes the key: [has] is then [false],
    [peek] finds nothing, the other items are untouched, the size is one
    less, and a second [delete] of the key throws. *)
Theorem delete_tracked key it c :
  JSMap.wf (Cache.cache c) ->
  JSMap.get key (Cache.cache c) = Some it ->
  ∃ c', Cache.delete key c = (Ret true, c') ∧
        Cache.has key c' = (Ret false, c') ∧
        Cache.peek key c' = (Ret None, c') ∧
        (∀ k, k ≠ key -> JSMap.get k (Cache.cache c') = JSMap.get k (Cache.cache c)) ∧
        S (length (Cache.cache c')) = length (Cache.cache c) ∧
        Cache.disposed c' = Cache.disposed c ++ option_list (dispose it) ∧
        Cache.lruQueue c' = lq_delete key (Cache.lruQueue c) ∧
        Cache.delete key c' = (Throw TypeError, c').
Proof.
  intros Hwf Hg. rewrite delete_eq, Hg. eexists. split; [done|].
  assert (JSMap.get key (Cache.cache (Cache.removed key it c)) = None) as Hgone.
  { cbn [Cache.removed Cache.cache]. by rewrite get_remove, decide_True. }
  rewrite has_eq, peek_eq, delete_eq, Hgone, has_false by done.
  cbn [Cache.removed Cache.cache Cache.disposed Cache.lruQueue].
  split_and!; try done.
  - intros k Hne. by rewrite get_remove, decide_False.
  - apply length_remove_wf; [done|]. apply get_is_Some. eauto.
Qed.

(** X6. Reads of a key that is not in the map: [peekItem], [peek] and
    [has] report absence and leave the state alone; [getItem] and [get]
    return [undefined] without throwing, with map and log unchanged (the
    queue is handed the key to [touch]). *)
Theorem reads_of_absent_key key (ts : number) c :
  JSMap.get key (Cache.cache c) = None ->
  Cache.peekItem (Some key) c = (Ret None, c) ∧
  Cache.peek key c = (Ret None, c) ∧
  Cache.has key c = (Ret false, c) ∧
  ∃ c', Cache.getItem key ts c = (Ret None, c') ∧
        Cache.get key ts c = (Ret None, c') ∧
        Cache.cache c' = Cache.cache c ∧
        Cache.disposed c' = Cache.disposed c ∧
        Cache.lruQueue c' = lq_touch key (Cache.lruQueue c).
Proof.
  intros Hg. rewrite peekItem_eq, peek_eq, has_eq, getItem_eq, get_eq, Hg, has_false by done.
  split_and!; try done. eexists. done.
Qed.

(** X7. An item whose [expireAfterTimestamp <= ts] stays visible to the
    reads that do not check the TTL ([has] is [true], [peek] returns the
    value) until [get]/[getItem] at [ts] meets it: that call returns
    [undefined], runs the callback, and removes the key from map and
    queue, so [has] turns [false] and the size drops by one. *)
Theorem get_of_expired_item key it (ts : number) c :
  JSMap.wf (Cache.cache c) ->
  JSMap.get key (Cache.cache c) = Some it ->
  num_le (expireAfterTimestamp it) ts = true ->
  Cache.has key c = (Ret true, c) ∧
  Cache.peek key c = (Ret (Some (value it)), c) ∧
  ∃ c', Cache.getItem key ts c = (Ret None, c') ∧
        Cache.get key ts c = (Ret None, c') ∧
        Cache.cache c' = JSMap.remove key (Cache.cache c) ∧
        Cache.has key c' = (Ret false, c') ∧
        S (length (Cache.cache c')) = length (Cache.cache c) ∧
        Cache.disposed c' = Cache.disposed c ++ option_list (dispose it) ∧
        Cache.lruQueue c' = lq_delete key (Cache.lruQueue c).
Proof.
  intros Hwf Hg Hexp. rewrite !has_eq, peek_eq, getItem_eq, get_eq, Hg, Hexp.
  split_and!.
  - f_equal. f_equal. apply has_true. by rewrite Hg.
  - done.
  - eexists. split_and!; try done.
    + rewrite has_eq. cbn [Cache.removed Cache.cache]. rewrite has_false; [done|].
      by rewrite get_remove, decide_True.
    + cbn [Cache.removed Cache.cache]. apply length_remove_wf; [done|].
      apply get_is_Some. eauto.
Qed.

(** X8. Whatever the size of the map before the call (a supplied map can
    hold more than [maximalItemCount] items), a [set] that returns [true]
    leaves fewer than [maximalItemCount + 1] items: at most
    [maximalItemCount] when that is an integer, and possibly one more than
    its integer part when it is not (the loop of [set] stops as soon as
    the size is below the capacity, and the write adds at most one). *)
Theorem set_restores_capacity o (m : QArith_base.Q) (now : number) key (v : V)
    (opts : ISetItemOptions) c c' :
  maximalItemCount o = Num m ->
  Cache.set o now key v opts c = (Ret true, c') ->
  (inject_Z (Z.of_nat (length (Cache.cache c'))) < m + 1)%Q ∧
  ∀ N : Z, (m == inject_Z N)%Q -> Z.of_nat (length (Cache.cache c')) <= N.
Proof.
  intros Hm. rewrite set_eq. destruct (num_le _ (Num 0)); [done|].
  destruct (Cache.evictLoop _ _ c) as [[[]|e|] c1] eqn:Hloop; try done.
  intros [= <-]. apply evictLoop_not_full in Hloop.
  unfold Cache.full in Hloop. rewrite Hm in Hloop.
  apply num_le_false in Hloop. cbn [Cache.inserted Cache.cache].
  pose proof (length_set_le key (Cache.new_item o now v opts) (Cache.cache c1)) as Hlen.
  assert (inject_Z (Z.of_nat (length (JSMap.set key (Cache.new_item o now v opts)
                                         (Cache.cache c1)))) <=
          inject_Z (Z.of_nat (length (Cache.cache c1))) + 1)%Q as Hle.
  { change 1%Q with (inject_Z 1). rewrite <- inject_Z_plus, <- Zle_Qle. lia. }
  split; [lra|].
  intros N HN.
  assert (inject_Z (Z.of_nat (length (Cache.cache c1))) < inject_Z N)%Q as Hlt by lra.
  rewrite <- Zlt_Qlt in Hlt. lia.
Qed.

(** *** The eviction loop on a supplied map *)

Lemma evictLoop_age o (N : Z) fuel c :
  evictExceedingItemsBy o = age -> maximalItemCount o = Num N -> 1 <= N ->
  JSMap.wf (Cache.cache c) -> (length (Cache.cache c) < fuel)%nat ->
  Cache.evictLoop o fuel c =
  (Ret tt,
   Cache.mkState
     (drop (excess N (Cache.cache c)) (Cache.cache c))
     (foldl (λ q k, lq_delete k q) (Cache.lruQueue c)
            (JSMap.keys (take (excess N (Cache.cache c)) (Cache.cache c))))
     (Cache.disposed c ++ Cache.callbacks (take (excess N (Cache.cache c)) (Cache.cache c)))).
Proof.
  intros Hage HN HN1. revert c.
  induction fuel as [|fuel IH]; intros c Hwf Hlen; [lia|].
  rewrite evictLoop_eq. unfold Cache.full. rewrite HN, num_le_Z.
  destruct (N <=? Z.of_nat (length (Cache.cache c))) eqn:Hfull.
  - apply Z.leb_le in Hfull. rewrite Hage, deleteOldestItem_eq.
    destruct c as [m q d]. cbn [Cache.cache Cache.lruQueue Cache.disposed] in *.
    destruct m as [|[k it] m']; [simpl in Hfull; lia|].
    assert (JSMap.remove k ((k, it) :: m') = m') as Hrem by (by apply remove_head_wf).
    unfold Cache.removed. cbn [Cache.cache Cache.lruQueue Cache.disposed dispose].
    rewrite Hrem, IH; cbn [Cache.cache Cache.lruQueue Cache.disposed].
    + unfold excess. cbn [length] in *.
      replace (S (length m') - Z.to_nat (N - 1))%nat
        with (S (length m' - Z.to_nat (N - 1))) by lia.
      cbn [drop take]. rewrite keys_cons, callbacks_cons. cbn [foldl snd].
      by rewrite (assoc_L (++)).
    + unfold JSMap.wf in *. rewrite keys_cons in Hwf. by apply NoDup_cons in Hwf as [_ ?].
    + cbn [length] in Hlen. lia.
  - apply Z.leb_gt in Hfull. unfold excess.
    replace (length (Cache.cache c) - Z.to_nat (N - 1))%nat with 0%nat by lia.
    destruct c as [m q d]. cbn [Cache.cache Cache.lruQueue Cache.disposed drop take].
    unfold JSMap.keys, Cache.callbacks.
    cbn [fmap list_fmap omap list_omap foldl]. by rewrite app_nil_r.
Qed.

(** X9. With strategy [age], [set] on a map of any size (a supplied map
    can hold [maximalItemCount] items or more) returns [true] after
    evicting the oldest entries, first inserted first, until fewer than
    [maximalItemCount] are left: their callbacks run in that order, the
    remaining entries keep their order, and the item is written. *)
Theorem set_age_evicts_oldest o (N : Z) (now : number) key (v : V)
    (opts : ISetItemOptions) c :
  evictExceedingItemsBy o = age -> maximalItemCount o = Num N -> 1 <= N ->
  JSMap.wf (Cache.cache c) ->
  Cache.ttl_ok o opts ->
  ∃ c', Cache.set o now key v opts c = (Ret true, c') ∧
        Cache.cache c' =
          JSMap.set key (Cache.new_item o now v opts)
                    (drop (excess N (Cache.cache c)) (Cache.cache c)) ∧
        Cache.disposed c' =
          Cache.disposed c ++ Cache.callbacks (take (excess N (Cache.cache c)) (Cache.cache c)) ∧
        Cache.lruQueue c' =
          lq_push key (foldl (λ q k, lq_delete k q) (Cache.lruQueue c)
                         (JSMap.keys (take (excess N (Cache.cache c)) (Cache.cache c)))).
Proof.
  intros Hage HN HN1 Hwf Hok. rewrite set_eq. unfold Cache.ttl_ok in Hok. rewrite Hok.
  rewrite (evictLoop_age o N) by (done || lia). eexists. done.
Qed.

(** X10. With strategy [lru], when the cache is full and the key that
    [shift()] hands out is not in the map, or the queue has none to hand
    out (as right after construction over a supplied, non-empty map),
    [set] throws a [TypeError]: nothing is written, no callback runs, and
    the queue stays shifted. *)
Theorem set_lru_untracked_victim o (now : number) key (v : V) (opts : ISetItemOptions) c :
  evictExceedingItemsBy o = lru ->
  Cache.full o c = true ->
  Cache.ttl_ok o opts ->
  ((lq_shift (Cache.lruQueue c)).1 ≫= λ k, JSMap.get k (Cache.cache c)) = None ->
  ∃ c', Cache.set o now key v opts c = (Throw TypeError, c') ∧
        Cache.cache c' = Cache.cache c ∧
        Cache.disposed c' = Cache.disposed c ∧
        Cache.lruQueue c' = (lq_shift (Cache.lruQueue c)).2.
Proof.
  intros Hlru Hfull Hok Hvictim. rewrite set_eq. unfold Cache.ttl_ok in Hok.
  rewrite Hok, evictLoop_eq, Hfull, Hlru. unfold Cache.void. unfold mbind at 1. unfold M_bind.
  rewrite deleteLeastRecentlyUsedItem_eq. cbn zeta.
  destruct (lq_shift (Cache.lruQueue c)).1 as [k|]; cbn in Hvictim.
  - rewrite Hvictim. eexists. done.
  - eexists. done.
Qed.

(** X11. [setTTL] followed by [get]: the new expiry decides.  For any
    [ttl] ([setTTL] does not refuse a [ttl <= 0]) a later [get] at [ts']
    returns the value when [beginningFromTimestamp + ttl > ts'], and
    otherwise removes the item and runs its callback. *)
Theorem setTTL_then_get key it (t ts ts' : number) c :
  JSMap.get key (Cache.cache c) = Some it ->
  ∃ c1, Cache.setTTL key t ts c = (Ret (num_add ts t), c1) ∧
        (num_le (num_add ts t) ts' = false ->
         ∃ c2, Cache.get key ts' c1 = (Ret (Some (value it)), c2) ∧
               Cache.cache c2 = Cache.cache c1) ∧
        (num_le (num_add ts t) ts' = true ->
         ∃ c2, Cache.get key ts' c1 = (Ret None, c2) ∧
               JSMap.get key (Cache.cache c2) = None ∧
               Cache.disposed c2 = Cache.disposed c ++ option_list (dispose it)).
Proof.
  intros Hg. rewrite setTTL_eq, Hg. eexists. split; [done|].
  rewrite get_eq. cbn [Cache.with_cache Cache.cache].
  rewrite get_set, decide_True by done. cbn [expireAfterTimestamp value].
  split; intros ->; eexists; (split; [done|]).
  - done.
  - cbn [Cache.removed Cache.cache Cache.disposed dispose].
    by rewrite get_remove, decide_True.
Qed.

(** *** Repeating the sweep *)

Lemma filter_none {A} (P : A -> Prop) `{!∀ x, Decision (P x)} (l : list A) :
  (∀ x, x ∈ l -> ¬ P x) -> filter P l = [].
Proof.
  induction l as [|a l IH]; intros HP; [done|].
  rewrite filter_cons_False by (apply HP; left). apply IH.
  intros x Hx. apply HP. by right.
Qed.

Lemma wf_filter (P : K * IItem V -> Prop) `{!∀ x, Decision (P x)} (m : list (K * IItem V)) :
  JSMap.wf m -> JSMap.wf (filter P m).
Proof.
  unfold JSMap.wf. induction m as [|[k it] m IH]; [done|].
  rewrite keys_cons. intros [Hnotin Hnd]%NoDup_cons. rewrite filter_cons.
  destruct (decide (P (k, it))); [|by apply IH].
  rewrite keys_cons. apply NoDup_cons. split; [|by apply IH].
  intros Hin. apply Hnotin. unfold JSMap.keys in *.
  apply list_elem_of_fmap in Hin as (e & -> & [_ Hp]%list_elem_of_filter).
  apply list_elem_of_fmap. by exists e.
Qed.

(** X12. The sweep is idempotent: a second [evictExpiredItems] at the same
    timestamp removes nothing, runs no callback and leaves the queue as
    it is. *)
Theorem sweep_twice (ts : number) c c' :
  JSMap.wf (Cache.cache c) ->
  Cache.evictExpiredItems ts c = (Ret tt, c') ->
  Cache.evictExpiredItems ts c' = (Ret tt, c').
Proof.
  intros Hwf. rewrite evictExpiredItems_eq by done. intros [= <-].
  assert (JSMap.wf (filter (λ p, ¬ Cache.expired ts p) (Cache.cache c))) as Hwf'.
  { by apply wf_filter. }
  rewrite evictExpiredItems_eq by done.
  cbn [Cache.cache Cache.lruQueue Cache.disposed].
  rewrite (filter_none (Cache.expired ts)
             (filter (λ p, ¬ Cache.expired ts p) (Cache.cache c))).
  - rewrite (filter_ext_in (λ p, ¬ Cache.expired ts p) (λ _, True)
               (filter (λ p, ¬ Cache.expired ts p) (Cache.cache c))).
    + rewrite filter_all by done.
      unfold JSMap.keys, Cache.callbacks. cbn [fmap list_fmap omap list_omap foldl].
      by rewrite app_nil_r.
    + intros x [Hx _]%list_elem_of_filter. by split.
  - by intros x [Hx _]%list_elem_of_filter.
Qed.

(** *** Which calls can throw *)

Lemma evictLoop_age_never_throws o fuel c e :
  evictExceedingItemsBy o = age -> (Cache.evictLoop o fuel c).1 ≠ Throw e.
Proof.
  intros Hage. revert c. induction fuel as [|fuel IH]; intros c;
    rewrite evictLoop_eq; destruct (Cache.full o c); try done.
  rewrite Hage, deleteOldestItem_eq.
  destruct (Cache.cache c) as [|[k it] m]; apply IH.
Qed.

(** X13. With strategy [age] and valid options every call of the public
    interface on a cache whose map has no key twice either returns, or it is a [delete] or a [setTTL] of a key
    that is not in the map, which throws a [TypeError] and leaves the
    cache as it was.  So [set], the reads, the sweep, [clear] and [size]
    always return, and so do [delete] and [setTTL] of a key of the map;
    no call runs forever. *)
Theorem age_throws_only_on_absent_key o (op : Cache.Op K V) c :
  Cache.valid o ->
  evictExceedingItemsBy o = age ->
  JSMap.wf (Cache.cache c) ->
  (∃ c', Cache.exec o op c = (Ret tt, c')) ∨
  (Cache.exec o op c = (Throw TypeError, c) ∧
   ∃ key, JSMap.get key (Cache.cache c) = None ∧
          (op = Cache.OpDelete key ∨ ∃ t ts, op = Cache.OpSetTTL key t ts)).
Proof.
  intros Hv Hage Hwf.
  assert (∀ e c', Cache.exec o op c = (Throw e, c') ->
            e = TypeError ∧ c' = c ∧
            ∃ key, JSMap.get key (Cache.cache c) = None ∧
                   (op = Cache.OpDelete key ∨ ∃ t ts, op = Cache.OpSetTTL key t ts))
    as Hthrow.
  { intros e c'.
    destruct op as [now key v opts|key|key|key ts|key ts|ts|key|key| | |key t ts];
      unfold Cache.exec, Cache.void; try (unfold mbind at 1; unfold M_bind); try done.
    - rewrite set_eq. destruct (num_le _ (Num 0)); [done|].
      pose proof (evictLoop_age_never_throws o (S (length (Cache.cache c))) c) as Hloop.
      destruct (Cache.evictLoop o _ c) as [[[]|e0|] c1]; try done.
      by destruct (Hloop e0 Hage).
    - rewrite getItem_eq. destruct (JSMap.get key (Cache.cache c)); [|done].
      by destruct (num_le _ _).
    - rewrite get_eq. destruct (JSMap.get key (Cache.cache c)); [|done].
      by destruct (num_le _ _).
    - by rewrite evictExpiredItems_eq.
    - rewrite delete_eq. destruct (JSMap.get key (Cache.cache c)) eqn:Hg; [done|].
      intros [= <- <-]. split_and!; try done. exists key. split; [done | by left].
    - rewrite setTTL_eq. destruct (JSMap.get key (Cache.cache c)) eqn:Hg; [done|].
      intros [= <- <-]. split_and!; try done. exists key. split; [done | right; eauto]. }
  pose proof (exec_terminates o op c Hv) as Hfuel.
  destruct (Cache.exec o op c) as [[[]|e|] c'] eqn:He.
  - left. eauto.
  - right. destruct (Hthrow e c' eq_refl) as (-> & -> & Hkey). done.
  - done.
Qed.

(** *** Unbounded capacity *)

(** X14. With [maximalItemCount = Infinity] (the default) nothing is ever
    evicted: after any series of accepted writes, repeated keys allowed,
    every written key holds the item of its write, the keys not written
    hold what they held, and no callback has run, whatever the strategy
    and the queue. *)
Theorem unbounded_keeps_everything o (now : K -> number) (v : K -> V)
    (opts : K -> ISetItemOptions) (ks : list K) c0 :
  maximalItemCount o = Infinity ->
  (∀ k, k ∈ ks -> Cache.ttl_ok o (opts k)) ->
  (∀ k, k ∈ ks ->
     Cache.peekItem (Some k)
       (Cache.run o ((λ k, Cache.OpSet (now k) k (v k) (opts k)) <$> ks) c0) =
     (Ret (Some (Cache.new_item o (now k) (v k) (opts k))),
      Cache.run o ((λ k, Cache.OpSet (now k) k (v k) (opts k)) <$> ks) c0)) ∧
  (∀ k, k ∉ ks ->
     JSMap.get k (Cache.cache
       (Cache.run o ((λ k, Cache.OpSet (now k) k (v k) (opts k)) <$> ks) c0)) =
     JSMap.get k (Cache.cache c0)) ∧
  Cache.disposed (Cache.run o ((λ k, Cache.OpSet (now k) k (v k) (opts k)) <$> ks) c0) =
    Cache.disposed c0.
Proof.
  intros Hinf.
  induction ks as [|k ks IH] using rev_ind; intros Hok.
  - split_and!.
    + by intros k ?%elem_of_nil.
    + intros k _. reflexivity.
    + reflexivity.
  - rewrite fmap_snoc, run_snoc.
    destruct IH as (IHin & IHout & IHd).
    { intros k' Hin. apply Hok, elem_of_app. by left. }
    set (c := Cache.run o _ c0) in *.
    assert (Cache.step o c (Cache.OpSet (now k) k (v k) (opts k)) =
            Cache.inserted k (Cache.new_item o (now k) (v k) (opts k)) c) as ->.
    { unfold Cache.step, Cache.exec, Cache.void. unfold mbind at 1. unfold M_bind.
      rewrite set_eq.
      assert (Cache.ttl_ok o (opts k)) as Hk by (apply Hok, elem_of_app; right; left).
      unfold Cache.ttl_ok in Hk. rewrite Hk, evictLoop_eq.
      unfold Cache.full. by rewrite Hinf. }
    split_and!.
    + intros k' Hin. rewrite peekItem_eq.
      cbn [Cache.inserted Cache.cache]. rewrite get_set.
      destruct (decide (k' = k)) as [->|Hne]; [done|].
      apply elem_of_app in Hin as [Hin|Hin%list_elem_of_singleton]; [|done].
      specialize (IHin k' Hin). rewrite peekItem_eq in IHin.
      injection IHin as Hg. by rewrite Hg.
    + intros k' Hout. cbn [Cache.inserted Cache.cache]. rewrite get_set.
      rewrite not_elem_of_app, list_elem_of_singleton in Hout. destruct Hout as [Hout Hne].
      rewrite decide_False by done. by apply IHout.
    + done.
Qed.

(** *** Only [set] writes *)

Lemma get_filter_Some (P : K * IItem V -> Prop) `{!∀ x, Decision (P x)} k it
    (m : list (K * IItem V)) :
  JSMap.wf m -> JSMap.get k (filter P m) = Some it -> JSMap.get k m = Some it.
Proof.
  intros Hwf Hg. destruct (JSMap.get k m) as [it0|] eqn:Hm.
  - rewrite (get_filter_wf P k it0) in Hg by done. by case_decide.
  - exfalso. apply get_None in Hm. apply Hm. unfold JSMap.keys.
    apply get_Some_elem in Hg. apply list_elem_of_filter in Hg as [_ Hin].
    apply list_elem_of_fmap. by exists (k, it).
Qed.

Lemma step_cache o (op : Cache.Op K V) c :
  JSMap.wf (Cache.cache c) ->
  (∀ now key v opts, op ≠ Cache.OpSet now key v opts) ->
  Cache.cache (Cache.step o c op) = Cache.cache c ∨
  (∃ key, Cache.cache (Cache.step o c op) = JSMap.remove key (Cache.cache c)) ∨
  (∃ ts, Cache.cache (Cache.step o c op) =
         filter (λ p, ¬ Cache.expired ts p) (Cache.cache c)) ∨
  Cache.cache (Cache.step o c op) = [] ∨
  (∃ key it e, (∃ t ts, op = Cache.OpSetTTL key t ts) ∧
     JSMap.get key (Cache.cache c) = Some it ∧
     Cache.cache (Cache.step o c op) =
       JSMap.set key (mkItem (value it) e (storageTimestamp it) (dispose it)) (Cache.cache c)).
Proof.
  intros Hwf Hnoset.
  destruct op as [now key v opts|key|key|key ts|key ts|ts|key|key| | |key t ts];
    unfold Cache.step, Cache.exec, Cache.void, mbind, M_bind.
  - by destruct (Hnoset now key v opts).
  - by left.
  - by left.
  - rewrite getItem_eq. destruct (JSMap.get key (Cache.cache c)) as [it|]; [|by left].
    destruct (num_le _ _); [right; left; by exists key | by left].
  - rewrite get_eq. destruct (JSMap.get key (Cache.cache c)) as [it|]; [|by left].
    destruct (num_le _ _); [right; left; by exists key | by left].
  - rewrite evictExpiredItems_eq by done. right; right; left. by exists ts.
  - by left.
  - rewrite delete_eq. destruct (JSMap.get key (Cache.cache c)) as [it|]; [|by left].
    right; left. by exists key.
  - by right; right; right; left.
  - by left.
  - rewrite setTTL_eq. destruct (JSMap.get key (Cache.cache c)) as [it|] eqn:Hg; [|by left].
    do 4 right. exists key, it, (num_add ts t). split; [by eauto|]. by split.
Qed.

(** X15. No call other than [set] adds a key or changes a stored value,
    storage timestamp or callback: after it, every item in the map was
    there before under the same key with the same three fields (only
    [setTTL] changes an expiry), and the map has not grown. *)
Theorem only_set_writes o (op : Cache.Op K V) c k it' :
  JSMap.wf (Cache.cache c) ->
  (∀ now key v opts, op ≠ Cache.OpSet now key v opts) ->
  JSMap.get k (Cache.cache (Cache.step o c op)) = Some it' ->
  (length (Cache.cache (Cache.step o c op)) <= length (Cache.cache c))%nat ∧
  ∃ it, JSMap.get k (Cache.cache c) = Some it ∧
        value it' = value it ∧
        storageTimestamp it' = storageTimestamp it ∧
        dispose it' = dispose it ∧
        ((∀ key t ts, op ≠ Cache.OpSetTTL key t ts) -> it' = it).
Proof.
  intros Hwf Hnoset.
  destruct (step_cache o op c Hwf Hnoset)
    as [-> | [[key ->] | [[ts ->] | [-> | (key & it & e & (t & ts & ->) & Hg & ->)]]]].
  - intros Hk. split; [done|]. exists it'. by split_and!.
  - rewrite get_remove. case_decide; [done|]. intros Hk.
    split; [apply length_remove_le|]. exists it'. by split_and!.
  - intros Hk%get_filter_Some; [|done].
    split; [apply length_filter|]. exists it'. by split_and!.
  - done.
  - rewrite get_set, length_set_present by (apply get_is_Some; eauto).
    case_decide as Hk.
    + subst k. intros [= <-]. split; [done|]. exists it. split_and!; try done.
      intros Hno. by destruct (Hno key t ts).
    + intros Hg'. split; [done|]. exists it'. by split_and!.
Qed.

End CacheMethods.

(** * The cache over any recency queue that meets the spec

    What follows holds for every queue with the laws of [LRUQueueSpec],
    and uses of the queue nothing but these laws. *)

Section QueueSpecFacts.
Context {K V Q : Type} `{LRUQueueSpec K Q}.
Implicit Types (c : Cache.State K V Q) (k key : K) (it item : IItem V) (o : IOptions).

Lemma filter_ne_notin k (l : list K) : k ∉ l -> filter (λ x, x ≠ k) l = l.
Proof.
  induction l as [|x l IH]; [done|].
  intros [Hx Hl]%not_elem_of_cons. rewrite filter_cons.
  rewrite decide_True by (intros ->; by apply Hx). f_equal. by apply IH.
Qed.

Lemma keys_filter_split (P : K * IItem V -> Prop) `{!∀ x, Decision (P x)}
    (m : list (K * IItem V)) k :
  JSMap.wf m ->
  k ∈ JSMap.keys (filter (λ p, ¬ P p) m) <->
  k ∈ JSMap.keys m ∧ k ∉ JSMap.keys (filter P m).
Proof.
  intros Hwf. rewrite <- get_None, <- !get_is_Some. split.
  - intros [a Ha].
    destruct (JSMap.get k m) as [b|] eqn:Hb.
    + rewrite (get_filter_wf _ k b) in Ha by done.
      rewrite (get_filter_wf _ k b) by done.
      destruct (decide (¬ P (k, b))) as [Hn|]; [|done].
      split; [eauto|]. by rewrite decide_False.
    + exfalso. assert (k ∈ JSMap.keys m) as Hin.
      { assert (k ∈ JSMap.keys (filter (λ p, ¬ P p) m)) as Hin'
          by (apply get_is_Some; eauto).
        unfold JSMap.keys in *.
        apply list_elem_of_fmap in Hin' as (e & -> & [_ He]%list_elem_of_filter).
        apply list_elem_of_fmap. by exists e. }
      apply get_is_Some in Hin as [? ?]. congruence.
  - intros [[b Hb] Hnone]. rewrite (get_filter_wf _ k b) in Hnone by done.
    rewrite (get_filter_wf _ k b) by done.
    destruct (decide (P (k, b))); [done|]. rewrite decide_True by done. eauto.
Qed.

(** *** The elementary changes keep queue and map in step *)

Lemma tracked_removed k it c :
  NoDup (tracked c) -> tracked (Cache.removed k it c) = filter (λ x, x ≠ k) (tracked c).
Proof. intros Hnd. unfold tracked. cbn [Cache.removed Cache.lruQueue]. by apply lq_keys_delete. Qed.

Lemma synced_removed k it c : synced c -> synced (Cache.removed k it c).
Proof.
  intros (Hwf & Hnd & Hs). unfold synced. rewrite tracked_removed by done.
  cbn [Cache.removed Cache.cache]. split_and!.
  - by apply wf_remove.
  - by apply NoDup_filter.
  - intros k'. rewrite keys_remove, !list_elem_of_filter, Hs. done.
Qed.

Lemma synced_nonempty c : synced c -> Cache.cache c ≠ [] -> ∃ k l, tracked c = k :: l.
Proof.
  intros (_ & _ & Hs) Hne. destruct (tracked c) as [|k l] eqn:Hq; [|eauto].
  exfalso. destruct (Cache.cache c) as [|[k it] m]; [done|].
  apply (not_elem_of_nil k), Hs. rewrite keys_cons. left.
Qed.

(** The queue hands out its least recently used key, and that key is in
    the map: [deleteLeastRecentlyUsedItem] disposes and removes it. *)
Lemma synced_evict_lru c k l :
  synced c -> tracked c = k :: l ->
  ∃ it, JSMap.get k (Cache.cache c) = Some it ∧
        (lq_shift (Cache.lruQueue c)).1 = Some k ∧
        let c' := Cache.removed k it
                    (Cache.with_lruQueue (λ _, (lq_shift (Cache.lruQueue c)).2) c) in
        Cache.deleteLeastRecentlyUsedItem c = (Ret true, c') ∧
        synced c' ∧ tracked c' = l.
Proof.
  intros (Hwf & Hnd & Hs) Hq.
  destruct (lq_keys_shift (Cache.lruQueue c) Hnd) as [Hsh Htl].
  unfold tracked in Hq. rewrite Hq in Hsh, Htl. cbn [head tail] in Hsh, Htl.
  assert (is_Some (JSMap.get k (Cache.cache c))) as [it Hg].
  { apply get_is_Some, Hs. unfold tracked. rewrite Hq. left. }
  unfold tracked in Hnd. rewrite Hq in Hnd. apply NoDup_cons in Hnd as [Hk Hl].
  exists it. split; [done|]. split; [done|]. cbn zeta.
  rewrite deleteLeastRecentlyUsedItem_eq. cbn zeta. rewrite Hsh, Hg. split; [done|].
  assert (tracked (Cache.removed k it
            (Cache.with_lruQueue (λ _, (lq_shift (Cache.lruQueue c)).2) c)) = l) as Ht.
  { rewrite tracked_removed; unfold tracked; cbn [Cache.with_lruQueue Cache.lruQueue];
      rewrite Htl; [by apply filter_ne_notin | done]. }
  split; [|done]. unfold synced. rewrite Ht.
  cbn [Cache.removed Cache.with_lruQueue Cache.cache]. split_and!; [by apply wf_remove | done |].
  intros k'. rewrite keys_remove, list_elem_of_filter, <- Hs. unfold tracked.
  rewrite Hq, elem_of_cons. split.
  - intros Hin. split; [by intros -> | by right].
  - by intros [Hne [->|Hin]].
Qed.

(** The loop of [set] on a cache in step returns and leaves it in step. *)
Lemma evictLoop_synced o fuel c :
  Cache.valid o -> synced c -> (length (Cache.cache c) < fuel)%nat ->
  ∃ c', Cache.evictLoop o fuel c = (Ret tt, c') ∧ synced c'.
Proof.
  intros Hv. revert c. induction fuel as [|fuel IH]; intros c Hsy Hlen; [lia|].
  rewrite evictLoop_eq. destruct (Cache.full o c) eqn:Hf; [|eauto].
  pose proof (full_nonempty _ _ Hv Hf) as Hne.
  destruct (evictExceedingItemsBy o).
  - rewrite deleteOldestItem_eq. destruct (Cache.cache c) as [|[k it] m] eqn:Hc; [done|].
    apply IH; [by apply synced_removed|]. cbn [Cache.removed Cache.cache]. rewrite Hc.
    assert (JSMap.get k ((k, it) :: m) = Some it) as Hg
      by (cbn [JSMap.get]; by rewrite decide_True).
    pose proof (length_remove_lt k it _ Hg). lia.
  - destruct (synced_nonempty c Hsy Hne) as (k & l & Hq).
    destruct (synced_evict_lru c k l Hsy Hq) as (it & Hg & _ & Hd & Hsy' & _).
    unfold Cache.void. unfold_monad. rewrite Hd.
    apply IH; [done|]. cbn [Cache.removed Cache.with_lruQueue Cache.cache].
    pose proof (length_remove_lt k it _ Hg). lia.
Qed.

(** The write of [set], when the key is not tracked. *)
Lemma synced_inserted key item c :
  synced c -> key ∉ tracked c ->
  synced (Cache.inserted key item c) ∧
  tracked (Cache.inserted key item c) = tracked c ++ [key] ∧
  Cache.cache (Cache.inserted key item c) = Cache.cache c ++ [(key, item)].
Proof.
  intros (Hwf & Hnd & Hs) Hk.
  assert (key ∉ JSMap.keys (Cache.cache c)) as Hk' by (by rewrite <- Hs).
  assert (tracked (Cache.inserted key item c) = tracked c ++ [key]) as Ht
    by (unfold tracked; cbn [Cache.inserted Cache.lruQueue]; by apply lq_keys_push).
  split_and!; [|done|cbn [Cache.inserted Cache.cache]; by apply set_absent].
  unfold synced. rewrite Ht. cbn [Cache.inserted Cache.cache]. split_and!.
  - by apply wf_set.
  - apply NoDup_app. split_and!; [done | | apply NoDup_singleton].
    by intros x Hx ->%list_elem_of_singleton.
  - intros k'. rewrite keys_set, decide_False by done. rewrite !elem_of_app, Hs. done.
Qed.

Lemma synced_touch k c :
  synced c ->
  synced (Cache.with_lruQueue (lq_touch k) c) ∧
  tracked (Cache.with_lruQueue (lq_touch k) c) =
    if decide (k ∈ tracked c) then filter (λ x, x ≠ k) (tracked c) ++ [k] else tracked c.
Proof.
  intros (Hwf & Hnd & Hs).
  assert (tracked (Cache.with_lruQueue (lq_touch k) c) =
          if decide (k ∈ tracked c) then filter (λ x, x ≠ k) (tracked c) ++ [k]
          else tracked c) as Ht
    by (unfold tracked; cbn [Cache.with_lruQueue Cache.lruQueue]; by apply lq_keys_touch).
  split; [|done]. unfold synced. rewrite Ht. cbn [Cache.with_lruQueue Cache.cache].
  split; [done|]. destruct (decide (k ∈ tracked c)) as [Hin|Hout]; [|done]. split.
  - apply NoDup_app. split_and!; [by apply NoDup_filter | | apply NoDup_singleton].
    by intros x [Hx _]%list_elem_of_filter ->%list_elem_of_singleton.
  - intros k'. rewrite elem_of_app, list_elem_of_filter, list_elem_of_singleton, <- Hs.
    destruct (decide (k' = k)) as [->|Hne]; tauto.
Qed.

Lemma tracked_foldl_delete (ks : list K) (q : Q) :
  NoDup (lq_keys q) ->
  lq_keys (foldl (λ q k, lq_delete k q) q ks) = filter (λ x, x ∉ ks) (lq_keys q).
Proof.
  revert q. induction ks as [|k ks IH]; intros q Hnd; cbn [foldl].
  - symmetry. apply filter_all. intros x. apply not_elem_of_nil.
  - rewrite IH by (rewrite lq_keys_delete by done; by apply NoDup_filter).
    rewrite lq_keys_delete by done. rewrite list_filter_filter.
    apply list_filter_iff. intros x. rewrite not_elem_of_cons. tauto.
Qed.

(** *** Every call within the precondition of [push] keeps them in step *)

Lemma step_synced o (op : Cache.Op K V) c :
  Cache.valid o -> synced c -> push_in_contract o op c -> synced (Cache.step o c op).
Proof.
  intros Hv Hsy Hpc. unfold Cache.step.
  destruct op as [now key v opts|key|key|key ts|key ts|ts|key|key| | |key t ts];
    unfold Cache.exec, Cache.void; try (unfold mbind at 1; unfold M_bind); try done.
  - rewrite set_eq. cbn [push_in_contract] in Hpc. unfold Cache.ttl_ok in Hpc.
    destruct (num_le _ (Num 0)); [done|]. specialize (Hpc eq_refl).
    destruct (evictLoop_synced o (S (length (Cache.cache c))) c Hv Hsy) as (c1 & Hl & Hsy1);
      [lia|].
    rewrite Hl in Hpc |- *. cbn [snd] in *. by apply synced_inserted.
  - rewrite getItem_eq. destruct (JSMap.get key (Cache.cache c)) as [it|].
    + destruct (num_le _ _); [by apply synced_removed | by apply synced_touch].
    + by apply synced_touch.
  - rewrite get_eq. destruct (JSMap.get key (Cache.cache c)) as [it|].
    + destruct (num_le _ _); [by apply synced_removed | by apply synced_touch].
    + by apply synced_touch.
  - destruct Hsy as (Hwf & Hnd & Hs). rewrite evictExpiredItems_eq by done.
    unfold mret, M_ret. cbn [snd].
    unfold synced, tracked. cbn [Cache.cache Cache.lruQueue].
    rewrite tracked_foldl_delete by done. split_and!.
    + by apply wf_filter.
    + by apply NoDup_filter.
    + intros k. rewrite list_elem_of_filter, keys_filter_split by done.
      unfold tracked in Hs. rewrite Hs. tauto.
  - rewrite delete_eq. destruct (JSMap.get key (Cache.cache c)) as [it|]; [|done].
    by apply synced_removed.
  - unfold synced, tracked, Cache.clear. unfold_monad.
    cbn [snd Cache.with_cache Cache.with_lruQueue Cache.cache Cache.lruQueue].
    rewrite lq_keys_clear.
    split_and!; [apply NoDup_nil_2 | apply NoDup_nil_2 | done].
  - rewrite setTTL_eq. destruct (JSMap.get key (Cache.cache c)) as [it|] eqn:Hg; [|done].
    destruct Hsy as (Hwf & Hnd & Hs). unfold mret, M_ret, synced, tracked.
    cbn [snd Cache.with_cache Cache.cache Cache.lruQueue]. split_and!.
    + by apply wf_set.
    + done.
    + intros k. rewrite keys_set, decide_True by (apply get_is_Some; eauto). apply Hs.
Qed.



(** *** Single calls on a cache in step *)

Lemma void_snd {A} (m : M (Cache.State K V Q) A) c : (Cache.void m c).2 = (m c).2.
Proof. unfold Cache.void, mbind, M_bind. by destruct (m c) as [[?|?|] ?]. Qed.




(** The sweep on a cache in step: the queue loses the keys of the expired
    items and keeps the others in their order. *)
Lemma sweep_synced ts c :
  synced c ->
  ∃ c', Cache.evictExpiredItems ts c = (Ret tt, c') ∧
        tracked c' =
          filter (λ k, k ∉ JSMap.keys (filter (Cache.expired ts) (Cache.cache c))) (tracked c) ∧
        synced c'.
Proof.
  intros Hsy. pose proof Hsy as (Hwf & Hnd & _).
  pose proof (step_synced (mkOptions Infinity Infinity lru) (Cache.OpEvictExpiredItems ts) c
                eq_refl Hsy I) as Hstep.
  unfold Cache.step, Cache.exec in Hstep. rewrite void_snd in Hstep.
  rewrite evictExpiredItems_eq in Hstep |- * by done.
  eexists. split; [reflexivity|]. split; [|exact Hstep].
  unfold tracked. cbn [Cache.lruQueue]. by apply tracked_foldl_delete.
Qed.


(** C10. Overwriting at full capacity.  On a map that holds exactly
    [maximalItemCount = N] items, a [set] with a positive TTL on a key
    that is present first evicts.  (1) The victim is the first key of the
    map (strategy [age], whatever the queue does) or the least recently
    used key (strategy [lru], for any queue that does what spec section
    4.1 says, in a state in which queue and map are in step); its
    callback is run and it is removed; then the item is written.  If the
    victim is the key being written the cache is back at [N] items;
    otherwise the victim is gone and the cache holds [N - 1] items, one
    below capacity.  (2) In any state and for any queue the overwrite is
    not removal-free: either [set] returns after removing exactly one
    item of the map, with disposal, or (strategy [lru], when [shift()]
    hands out no key of the map) it throws a [TypeError] and writes
    nothing. *)
Theorem overwrite_at_capacity o (N : Z) c (now : number) key (v : V) (opts : ISetItemOptions) :
  Cache.valid o ->
  maximalItemCount o = Num N ->
  JSMap.wf (Cache.cache c) ->
  key ∈ JSMap.keys (Cache.cache c) ->
  Z.of_nat (length (Cache.cache c)) = N ->
  Cache.ttl_ok o opts ->
  ((evictExceedingItemsBy o = lru -> synced c) ->
   ∃ victim it c',
     match evictExceedingItemsBy o with
     | age => head (JSMap.keys (Cache.cache c))
     | lru => head (tracked c)
     end = Some victim ∧
     JSMap.get victim (Cache.cache c) = Some it ∧
     Cache.set o now key v opts c = (Ret true, c') ∧
     Cache.cache c' =
       JSMap.set key (Cache.new_item o now v opts) (JSMap.remove victim (Cache.cache c)) ∧
     Cache.disposed c' = Cache.disposed c ++ option_list (dispose it) ∧
     (victim = key -> Z.of_nat (length (Cache.cache c')) = N) ∧
     (victim ≠ key ->
        JSMap.get victim (Cache.cache c') = None ∧
        Z.of_nat (length (Cache.cache c')) = N - 1)) ∧
  ((∃ victim it c',
      JSMap.get victim (Cache.cache c) = Some it ∧
      Cache.set o now key v opts c = (Ret true, c') ∧
      Cache.cache c' =
        JSMap.set key (Cache.new_item o now v opts) (JSMap.remove victim (Cache.cache c)) ∧
      Cache.disposed c' = Cache.disposed c ++ option_list (dispose it)) ∨
   (evictExceedingItemsBy o = lru ∧
    ((lq_shift (Cache.lruQueue c)).1 ≫= λ k, JSMap.get k (Cache.cache c)) = None ∧
    ∃ c', Cache.set o now key v opts c = (Throw TypeError, c') ∧
          Cache.cache c' = Cache.cache c ∧
          Cache.disposed c' = Cache.disposed c)).
Proof.
  intros Hv HN Hwf Hin Hlen Hok.
  pose proof (valid_Z _ _ Hv HN) as HN1.
  assert (∀ victim it,
            match evictExceedingItemsBy o with
            | age => head (JSMap.keys (Cache.cache c))
            | lru => (lq_shift (Cache.lruQueue c)).1
            end = Some victim ->
            JSMap.get victim (Cache.cache c) = Some it ->
            Cache.set o now key v opts c =
              (Ret true,
               Cache.mkState
                 (JSMap.set key (Cache.new_item o now v opts)
                            (JSMap.remove victim (Cache.cache c)))
                 (lq_push key (lq_delete victim
                    match evictExceedingItemsBy o with
                    | age => Cache.lruQueue c
                    | lru => (lq_shift (Cache.lruQueue c)).2
                    end))
                 (Cache.disposed c ++ option_list (dispose it)))) as Hret.
  { intros victim it Hvict Hg. rewrite set_eq. unfold Cache.ttl_ok in Hok. rewrite Hok.
    rewrite (evictLoop_exact o N c _ victim it) by done.
    unfold Cache.inserted, Cache.removed. by destruct (evictExceedingItemsBy o). }
  assert (Cache.full o c = true) as Hfull.
  { unfold Cache.full. rewrite HN, num_le_Z. apply Z.leb_le. lia. }
  split.
  - intros Hsy.
    assert (∃ victim it,
              match evictExceedingItemsBy o with
              | age => head (JSMap.keys (Cache.cache c))
              | lru => head (tracked c)
              end = Some victim ∧
              match evictExceedingItemsBy o with
              | age => head (JSMap.keys (Cache.cache c))
              | lru => (lq_shift (Cache.lruQueue c)).1
              end = Some victim ∧
              JSMap.get victim (Cache.cache c) = Some it)
      as (victim & it & Hhead & Hvict & Hg).
    { destruct (evictExceedingItemsBy o).
      - destruct (Cache.cache c) as [|[k0 it0] m0] eqn:Hc; [simpl in Hlen; lia|].
        exists k0, it0. rewrite keys_cons. cbn [head JSMap.get]. by rewrite decide_True.
      - specialize (Hsy eq_refl).
        assert (Cache.cache c ≠ []) as Hne
          by (intros Hc; rewrite Hc in Hlen; simpl in Hlen; lia).
        destruct (synced_nonempty c Hsy Hne) as (k0 & l & Hq).
        destruct (synced_evict_lru c k0 l Hsy Hq) as (it0 & Hg0 & Hsh & _).
        exists k0, it0. by rewrite Hq. }
    exists victim, it. eexists. split; [done|]. split; [done|].
    split; [by apply Hret|]. cbn [Cache.cache Cache.disposed].
    split; [done|]. split; [done|].
    assert (victim ∈ JSMap.keys (Cache.cache c)) as Hvin by (apply get_is_Some; eauto).
    pose proof (length_remove_wf victim _ Hwf Hvin) as Hl.
    split.
    + intros ->. rewrite set_absent.
      * rewrite length_app. cbn [length]. lia.
      * rewrite keys_remove, list_elem_of_filter. tauto.
    + intros Hne. rewrite get_set, decide_False, get_remove, decide_True by done.
      split; [done|]. rewrite length_set_present; [lia|].
      rewrite keys_remove, list_elem_of_filter. auto.
  - destruct (evictExceedingItemsBy o) eqn:Hstrat.
    + left. destruct (Cache.cache c) as [|[k0 it0] m0] eqn:Hc; [simpl in Hlen; lia|].
      assert (JSMap.get k0 ((k0, it0) :: m0) = Some it0) as Hg
        by (cbn [JSMap.get]; by rewrite decide_True).
      exists k0, it0. eexists. split; [done|].
      split; [apply Hret; [by rewrite keys_cons | done]|]. done.
    + destruct ((lq_shift (Cache.lruQueue c)).1 ≫= λ k, JSMap.get k (Cache.cache c))
        as [it|] eqn:Hpick.
      * left. destruct (lq_shift (Cache.lruQueue c)).1 as [k0|] eqn:Hsh; [|done].
        cbn in Hpick. exists k0, it. eexists. split; [done|].
        split; [by apply Hret|]. done.
      * right. split; [done|]. split; [done|].
        rewrite set_eq. unfold Cache.ttl_ok in Hok.
        rewrite Hok, evictLoop_eq, Hfull, Hstrat. unfold Cache.void. unfold mbind at 1.
        unfold M_bind. rewrite deleteLeastRecentlyUsedItem_eq. cbn zeta.
        destruct (lq_shift (Cache.lruQueue c)).1 as [k|]; cbn in Hpick.
        -- rewrite Hpick. eexists. done.
        -- eexists. done.
Qed.

(** *** Eviction by least recent use *)


End QueueSpecFacts.

(** ** The statements over the queue laws, on the sample caches *)




(** Once the key has been pushed twice and deleted once, the queue that
    removes one entry per [delete] hands out a key that is not in the
    map, and a [set] on the full cache throws instead of evicting. *)
Example stale_key_throws :
  let c := @Cache.run string string (list string) _ single_delete_LRUQueue lru2
             (double_push ++ [Cache.OpSet (Num 0) "b" "Y" (plain None);
                              Cache.OpSet (Num 0) "c" "Z" (plain None)]) fresh in
  Cache.lruQueue c = ["a"; "b"; "c"] ∧
  JSMap.keys (Cache.cache c) = ["b"; "c"] ∧
  (@Cache.set string string (list string) _ single_delete_LRUQueue lru2
     (Num 0) "b" "W" (plain None) c).1 = Throw TypeError.
Proof. cbn zeta. split_and!; reflexivity. Qed.

Lemma overwrite_at_capacity_witness :
  Cache.valid lru2 ∧
  JSMap.wf (Cache.cache two_items) ∧
  synced two_items ∧
  "b" ∈ JSMap.keys (Cache.cache two_items) ∧
  Z.of_nat (length (Cache.cache two_items)) = 2 ∧
  ∃ c', Cache.set lru2 (Num 0) "b" "Z" (plain (Some 3%nat)) two_items = (Ret true, c') ∧
        JSMap.get "a" (Cache.cache c') = None ∧
        Z.of_nat (length (Cache.cache c')) = 2 - 1 ∧
        Cache.disposed c' = [1%nat].
Proof.
  assert (Cache.valid lru2) as Hv by reflexivity.
  assert (JSMap.wf (Cache.cache two_items)) as Hwf
    by (apply (bool_decide_unpack _); reflexivity).
  assert (synced two_items) as Hsy.
  { split; [exact Hwf|]. split; [apply (bool_decide_unpack _); reflexivity|].
    intros k. reflexivity. }
  assert ("b" ∈ JSMap.keys (Cache.cache two_items)) as Hin
    by (apply (bool_decide_unpack _); reflexivity).
  split; [exact Hv|]. split; [exact Hwf|]. split; [exact Hsy|]. split; [exact Hin|].
  split; [reflexivity|].
  destruct (proj1 (overwrite_at_capacity lru2 2 two_items (Num 0) "b" "Z" (plain (Some 3%nat))
                     Hv eq_refl Hwf Hin eq_refl eq_refl) (λ _, Hsy))
    as (victim & it & c' & Hvict & Hg & Hset & _ & Hd & _ & Hne).
  injection Hvict as <-. injection Hg as <-.
  exists c'. split; [exact Hset|].
  destruct Hne as [Hgone Hlen]; [discriminate|].
  split; [exact Hgone|]. split; [exact Hlen | exact Hd].
Defined.

(** * The further properties on the sample caches *)

Lemma constructor_contract_witness :
  num_lt (Num 0) (Num 0) = false ∧
  Cache.constructor (Some (Num 0)) None None None =
    inr (mkOptions (Num 0) Infinity lru, fresh) ∧
  Cache.set (mkOptions (Num 0) Infinity lru) (Num 7) "a" "x" (plain (Some 1%nat)) fresh =
    (Ret false, fresh).
Proof.
  destruct (constructor_contract (K:=string) (V:=string) (Q:=list string)
              (Some (Num 0)) None None None) as (_ & Hok & Hset).
  split; [reflexivity|]. split; [exact (Hok eq_refl eq_refl)|].
  exact (Hset _ _ (Hok eq_refl eq_refl) (Num 7) "a" "x" None (Some 1%nat) fresh).
Defined.

Lemma set_refusal_witness :
  ¬ Cache.ttl_ok (createCache lru) (mkSetOptions (Some (Num 0)) None None) ∧
  Cache.set (createCache lru) (Num 12000) "a" "y" (mkSetOptions (Some (Num 0)) None None)
            two_ttls = (Ret false, two_ttls).
Proof.
  assert (¬ Cache.ttl_ok (createCache lru) (mkSetOptions (Some (Num 0)) None None)) as Hno
    by (intros Hok; discriminate Hok).
  split; [exact Hno|].
  exact (proj1 (set_refusal (createCache lru) (Num 12000) "a" "y"
                  (mkSetOptions (Some (Num 0)) None None) two_ttls) Hno).
Defined.

Lemma set_get_roundtrip_witness :
  Cache.set lru2 (Num 0) "a" "X" (plain (Some 1%nat)) fresh = (Ret true, one_item) ∧
  Cache.peek "a" one_item = (Ret (Some "X"), one_item) ∧
  Cache.has "a" one_item = (Ret true, one_item).
Proof.
  assert (Cache.set lru2 (Num 0) "a" "X" (plain (Some 1%nat)) fresh = (Ret true, one_item))
    as Hset by reflexivity.
  split; [exact Hset|].
  destruct (set_get_roundtrip lru2 (Num 0) (Num 0) "a" "X" (plain (Some 1%nat))
              fresh one_item Hset) as (_ & Hpeek & Hhas & _).
  split; [exact Hpeek | exact Hhas].
Defined.

Lemma infinite_ttl_item_witness :
  default (defaultTTL lru2) (ttl (plain (Some 1%nat))) = Infinity ∧
  JSMap.wf (Cache.cache one_item) ∧
  Cache.set lru2 (Num 0) "a" "X" (plain (Some 1%nat)) fresh = (Ret true, one_item) ∧
  ∀ z : Z, ∃ c'', Cache.get "a" (Num z) one_item = (Ret (Some "X"), c'') ∧
                  Cache.cache c'' = Cache.cache one_item.
Proof.
  assert (JSMap.wf (Cache.cache one_item)) as Hwf
    by (apply (bool_decide_unpack _); reflexivity).
  assert (Cache.set lru2 (Num 0) "a" "X" (plain (Some 1%nat)) fresh = (Ret true, one_item))
    as Hset by reflexivity.
  split; [reflexivity|]. split; [exact Hwf|]. split; [exact Hset|].
  exact (proj1 (infinite_ttl_item lru2 (Num 0) "a" "X" (plain (Some 1%nat))
                  fresh one_item eq_refl Hwf Hset)).
Defined.

Lemma delete_tracked_witness :
  JSMap.wf (Cache.cache two_items) ∧
  JSMap.get "a" (Cache.cache two_items) = Some (mkItem "X" Infinity (Num 0) (Some 1%nat)) ∧
  ∃ c', Cache.delete "a" two_items = (Ret true, c') ∧
        Cache.has "a" c' = (Ret false, c') ∧
        Cache.disposed c' = [1%nat] ∧
        Cache.delete "a" c' = (Throw TypeError, c').
Proof.
  assert (JSMap.wf (Cache.cache two_items)) as Hwf
    by (apply (bool_decide_unpack _); reflexivity).
  assert (JSMap.get "a" (Cache.cache two_items) =
          Some (mkItem "X" Infinity (Num 0) (Some 1%nat))) as Hg by reflexivity.
  split; [exact Hwf|]. split; [exact Hg|].
  destruct (delete_tracked "a" (mkItem "X" Infinity (Num 0) (Some 1%nat)) two_items
              Hwf Hg) as (c' & Hdel & Hhas & _ & _ & _ & Hd & _ & Hagain).
  exists c'. split; [exact Hdel|]. split; [exact Hhas|]. split; [exact Hd | exact Hagain].
Defined.

Lemma reads_of_absent_key_witness :
  JSMap.get "zz" (Cache.cache two_items) = None ∧
  Cache.peek "zz" two_items = (Ret None, two_items) ∧
  Cache.has "zz" two_items = (Ret false, two_items) ∧
  ∃ c', Cache.get "zz" (Num 0) two_items = (Ret None, c') ∧
        Cache.cache c' = Cache.cache two_items.
Proof.
  assert (JSMap.get "zz" (Cache.cache two_items) = None) as Hg by reflexivity.
  destruct (reads_of_absent_key "zz" (Num 0) two_items Hg)
    as (_ & Hpeek & Hhas & c' & _ & Hget & Hc & _).
  split; [exact Hg|]. split; [exact Hpeek|]. split; [exact Hhas|].
  exists c'. split; [exact Hget | exact Hc].
Defined.

Lemma get_of_expired_item_witness :
  JSMap.wf (Cache.cache two_ttls) ∧
  JSMap.get "a" (Cache.cache two_ttls) = Some (mkItem "x" (Num 15000) (Num 10000) (Some 1%nat)) ∧
  Cache.has "a" two_ttls = (Ret true, two_ttls) ∧
  ∃ c', Cache.get "a" (Num 15000) two_ttls = (Ret None, c') ∧
        Cache.has "a" c' = (Ret false, c') ∧
        Cache.disposed c' = [1%nat].
Proof.
  assert (JSMap.wf (Cache.cache two_ttls)) as Hwf
    by (apply (bool_decide_unpack _); reflexivity).
  assert (JSMap.get "a" (Cache.cache two_ttls) =
          Some (mkItem "x" (Num 15000) (Num 10000) (Some 1%nat))) as Hg by reflexivity.
  destruct (get_of_expired_item "a" (mkItem "x" (Num 15000) (Num 10000) (Some 1%nat))
              (Num 15000) two_ttls Hwf Hg eq_refl)
    as (Hhas & _ & c' & _ & Hget & _ & Hgone & _ & Hd & _).
  split; [exact Hwf|]. split; [exact Hg|]. split; [exact Hhas|].
  exists c'. split; [exact Hget|]. split; [exact Hgone | exact Hd].
Defined.

Lemma set_restores_capacity_witness :
  Cache.set lru2 (Num 0) "b" "Z" (plain (Some 3%nat)) two_items =
    (Ret true, (Cache.set lru2 (Num 0) "b" "Z" (plain (Some 3%nat)) two_items).2) ∧
  (inject_Z (Z.of_nat (length (Cache.cache
     (Cache.set lru2 (Num 0) "b" "Z" (plain (Some 3%nat)) two_items).2))) < 2 + 1)%Q ∧
  ∀ N : Z, (2 == inject_Z N)%Q ->
    Z.of_nat (length (Cache.cache
      (Cache.set lru2 (Num 0) "b" "Z" (plain (Some 3%nat)) two_items).2)) <= N.
Proof.
  assert (Cache.set lru2 (Num 0) "b" "Z" (plain (Some 3%nat)) two_items =
          (Ret true, (Cache.set lru2 (Num 0) "b" "Z" (plain (Some 3%nat)) two_items).2))
    as Hset by reflexivity.
  split; [exact Hset|].
  exact (set_restores_capacity lru2 2 (Num 0) "b" "Z" (plain (Some 3%nat)) two_items _
           eq_refl Hset).
Defined.

Lemma set_age_evicts_oldest_witness :
  JSMap.wf (Cache.cache supplied3) ∧
  ∃ c', Cache.set age2 (Num 0) "d" "w" (plain None) supplied3 = (Ret true, c') ∧
        JSMap.keys (Cache.cache c') = ["c"; "d"] ∧
        Cache.disposed c' = [1%nat; 2%nat].
Proof.
  assert (JSMap.wf (Cache.cache supplied3)) as Hwf
    by (apply (bool_decide_unpack _); reflexivity).
  split; [exact Hwf|].
  assert (1 <= 2) as H12 by lia.
  assert (Cache.ttl_ok age2 (plain None)) as Hok by reflexivity.
  destruct (set_age_evicts_oldest age2 2 (Num 0) "d" "w" (plain None) supplied3
              eq_refl eq_refl H12 Hwf Hok) as (c' & Hset & Hc & Hd & _).
  exists c'. split; [exact Hset|]. rewrite Hc, Hd. split; reflexivity.
Defined.

Lemma set_lru_untracked_victim_witness :
  Cache.full lru2 supplied3 = true ∧
  lq_shift (Cache.lruQueue supplied3) = (None, []) ∧
  ∃ c', Cache.set lru2 (Num 0) "d" "w" (plain None) supplied3 = (Throw TypeError, c') ∧
        Cache.cache c' = Cache.cache supplied3 ∧
        Cache.disposed c' = [].
Proof.
  assert (Cache.full lru2 supplied3 = true) as Hfull by reflexivity.
  assert (Cache.ttl_ok lru2 (plain None)) as Hok by reflexivity.
  assert (((lq_shift (Cache.lruQueue supplied3)).1
             ≫= λ k, JSMap.get k (Cache.cache supplied3)) = None) as Hnone by reflexivity.
  split; [exact Hfull|]. split; [reflexivity|].
  destruct (set_lru_untracked_victim lru2 (Num 0) "d" "w" (plain None) supplied3
              eq_refl Hfull Hok Hnone) as (c' & Hset & Hc & Hd & _).
  exists c'. split; [exact Hset|]. split; [exact Hc | exact Hd].
Defined.

Lemma setTTL_then_get_witness :
  JSMap.get "a" (Cache.cache two_ttls) = Some (mkItem "x" (Num 15000) (Num 10000) (Some 1%nat)) ∧
  ∃ c1, Cache.setTTL "a" (Num (-1)) (Num 12000) two_ttls = (Ret (Num 11999), c1) ∧
        ∃ c2, Cache.get "a" (Num 12000) c1 = (Ret None, c2) ∧
              Cache.disposed c2 = [1%nat].
Proof.
  assert (JSMap.get "a" (Cache.cache two_ttls) =
          Some (mkItem "x" (Num 15000) (Num 10000) (Some 1%nat))) as Hg by reflexivity.
  split; [exact Hg|].
  destruct (setTTL_then_get "a" (mkItem "x" (Num 15000) (Num 10000) (Some 1%nat))
              (Num (-1)) (Num 12000) (Num 12000) two_ttls Hg)
    as (c1 & Hset & _ & Hexp).
  exists c1. split; [exact Hset|].
  destruct (Hexp eq_refl) as (c2 & Hget & _ & Hd).
  exists c2. split; [exact Hget | exact Hd].
Defined.

Lemma sweep_twice_witness :
  JSMap.wf (Cache.cache two_ttls) ∧
  Cache.evictExpiredItems (Num 15000) two_ttls =
    (Ret tt, (Cache.evictExpiredItems (Num 15000) two_ttls).2) ∧
  Cache.evictExpiredItems (Num 15000) (Cache.evictExpiredItems (Num 15000) two_ttls).2 =
    (Ret tt, (Cache.evictExpiredItems (Num 15000) two_ttls).2).
Proof.
  assert (JSMap.wf (Cache.cache two_ttls)) as Hwf
    by (apply (bool_decide_unpack _); reflexivity).
  assert (Cache.evictExpiredItems (Num 15000) two_ttls =
          (Ret tt, (Cache.evictExpiredItems (Num 15000) two_ttls).2)) as Hsweep by reflexivity.
  split; [exact Hwf|]. split; [exact Hsweep|].
  exact (sweep_twice (Num 15000) two_ttls _ Hwf Hsweep).
Defined.

Lemma age_throws_only_on_absent_key_witness :
  Cache.valid age2 ∧ JSMap.wf (Cache.cache supplied3) ∧
  ((∃ c', Cache.exec age2 (Cache.OpDelete "zz") supplied3 = (Ret tt, c')) ∨
   (Cache.exec age2 (Cache.OpDelete "zz") supplied3 = (Throw TypeError, supplied3) ∧
    ∃ key, JSMap.get key (Cache.cache supplied3) = None ∧
           (Cache.OpDelete (V:=string) "zz" = Cache.OpDelete key ∨
            ∃ t ts, Cache.OpDelete (V:=string) "zz" = Cache.OpSetTTL key t ts))).
Proof.
  assert (Cache.valid age2) as Hv by reflexivity.
  assert (JSMap.wf (Cache.cache supplied3)) as Hwf
    by (apply (bool_decide_unpack _); reflexivity).
  split; [exact Hv|]. split; [exact Hwf|].
  exact (age_throws_only_on_absent_key age2 (Cache.OpDelete "zz") supplied3 Hv eq_refl Hwf).
Defined.

Lemma unbounded_keeps_everything_witness :
  maximalItemCount unbounded = Infinity ∧
  Cache.disposed
    (Cache.run unbounded
       ((λ k, Cache.OpSet (Num 0) k k (plain (Some (String.length k)))) <$> ["a"; "bb"; "a"])
       fresh) = [].
Proof.
  split; [reflexivity|].
  exact (proj2 (proj2 (unbounded_keeps_everything unbounded (λ _, Num 0) (λ k, k)
                         (λ k, plain (Some (String.length k))) ["a"; "bb"; "a"] fresh
                         eq_refl (λ _ _, eq_refl)))).
Defined.

Lemma only_set_writes_witness :
  JSMap.wf (Cache.cache two_ttls) ∧
  JSMap.get "d" (Cache.cache (Cache.step (createCache lru) two_ttls
                                (Cache.OpEvictExpiredItems (Num 15000)))) =
    Some (mkItem "x" (Num 16000) (Num 11000) (Some 2%nat)) ∧
  (length (Cache.cache (Cache.step (createCache lru) two_ttls
                          (Cache.OpEvictExpiredItems (Num 15000)))) <=
   length (Cache.cache two_ttls))%nat.
Proof.
  assert (JSMap.wf (Cache.cache two_ttls)) as Hwf
    by (apply (bool_decide_unpack _); reflexivity).
  assert (JSMap.get "d" (Cache.cache (Cache.step (createCache lru) two_ttls
                                         (Cache.OpEvictExpiredItems (Num 15000)))) =
          Some (mkItem "x" (Num 16000) (Num 11000) (Some 2%nat))) as Hg by reflexivity.
  split; [exact Hwf|]. split; [exact Hg|].
  refine (proj1 (only_set_writes (createCache lru) (Cache.OpEvictExpiredItems (Num 15000))
                   two_ttls "d" (mkItem "x" (Num 16000) (Num 11000) (Some 2%nat))
                   Hwf _ Hg)).
  intros now key v opts Heq. discriminate Heq.
Defined.
